(** * odnu-faas: the space-news fetch / aggregate / store functions

    A shallow embedding of [functions/src/index.ts].  The program is a
    sequence of awaited effects (document-store calls, HTTP requests, log
    lines, one HTTP response) guarded by [try]/[catch] blocks.  It is modelled
    in a small monad that threads the document store, collects the emitted
    effects in order, and carries JavaScript exceptions.

    What lives outside the file (the Firestore service, the network, the
    clock, [JSON.stringify], the configured API key) is an [Env]: a fixed
    description of how the outside answers during one run, including which
    calls it rejects.  Within a run every URL is requested at most once and
    every collection is read and committed at most once, so a fixed answer
    per URL, per collection and per batch covers every behaviour of the
    outside.

    The store is the set of documents of its top-level collections, the ones
    [listCollections] on the root enumerates and the only ones the program
    writes; a collection exists as long as it holds a document.  The client
    returns the collections sorted by id and the documents of a collection
    sorted by name; how two strings compare, and where [slice] cuts one, are
    facts about the runtime's strings and come with the environment.  A batch
    commit is all-or-nothing.  The TypeScript interfaces ([Nasa],
    [SpaceXLaunch], ...) are compile-time casts with no effect at run time,
    and the start-up of the Admin SDK is outside the model. *)

From stdpp Require Import base strings gmap list pretty sorting.

Open Scope string_scope.
Open Scope Z_scope.
Open Scope list_scope.

(** ** JavaScript values *)

(** What [response.json()] can produce.  Numbers are carried as integers: the
    program never computes with a payload. *)
#[local] Unset Elimination Schemes.
Inductive json : Type :=
| JNull
| JBool (b : bool)
| JNumber (n : Z)
| JString (s : string)
| JArray (items : list json)
| JObject (fields : list (string * json)).
#[local] Set Elimination Schemes.

(** A thrown [Error] object: its [name] and its [message]. *)
Record exn : Type := { name : string; message : string }.

(** [new Error(msg)] *)
Definition Error (msg : string) : exn := {| name := "Error"; message := msg |}.

(** [`${error}`], that is [Error.prototype.toString]. *)
Definition exn_toString (e : exn) : string :=
  if decide (name e = "") then message e
  else if decide (message e = "") then name e
  else name e +:+ ": " +:+ message e.

(** ** The document store and the effects of a run *)

(** A document is addressed by its top-level collection and its id. *)
Definition DocRef : Type := string * string.

Definition Headers : Type := list (string * string).

(** The levels of [firebase-functions/logger]. *)
Inductive level : Type := Info | Warn | Debug | Err.

(** A call that is visible outside the program, recorded when it is issued,
    whether it then succeeds or not.  [EvLog l msg err] is a log line with
    its message and, for [logger.error(msg, error)], the error passed along;
    [EvFetch] is a GET request. *)
Inductive event : Type :=
| EvLog (l : level) (msg : string) (err : option exn)
| EvFetch (url : string) (headers : Headers)
| EvListCollections
| EvCollectionGet (c : string)
| EvBatchCommit (deletes : list DocRef)
| EvDocSet (r : DocRef) (data : json)
| EvSend (status : Z) (body : string).

Inductive Res (A : Type) : Type :=
| Ok (a : A)
| Throw (e : exn).
Arguments Ok {A} a.
Arguments Throw {A} e.

(** A [fetch] either rejects (transport failure) or resolves to a response
    with a status and a body; [body] is what [response.json()] gives, a
    rejection when the body is not JSON. *)
Record Response : Type := { status : Z; body : Res json }.

Inductive HttpOutcome : Type :=
| Rejected (e : exn)
| Resolved (r : Response).

(** The outside of one run: the configured key, the reading of the clock at
    its n-th call, [JSON.stringify], [String.prototype.slice], the order in
    which the client sorts collection ids and the one in which the store
    returns document names, the answer of the network to a GET, and
    the error, if any, with which the store rejects a listing, the read of a
    collection, the commit of a batch, the write of a document. *)
Record Env : Type := {
  NASA_API_KEY : string;
  now : nat -> Z;
  JSON_stringify : json -> string;
  String_slice : string -> Z -> Z -> string;
  collection_id_le : string -> string -> bool;
  document_name_le : string -> string -> bool;
  http : string -> Headers -> HttpOutcome;
  listCollections_error : option exn;
  get_error : string -> option exn;
  commit_error : list DocRef -> option exn;
  set_error : DocRef -> json -> option exn
}.

(** The mutable state of a run: the documents of the store and the number of
    clock readings taken so far. *)
Record World : Type := { store : gmap DocRef json; clock : nat }.

(** What an awaited computation leaves: a value or a thrown error, the state
    it ends in, and the calls it issued, oldest first. *)
Record Out (A : Type) : Type := { res : Res A; world : World; events : list event }.
Arguments res {A} o.
Arguments world {A} o.
Arguments events {A} o.

Definition M (A : Type) : Type := World -> Out A.

Definition ret {A} (a : A) : M A :=
  fun w => {| res := Ok a; world := w; events := [] |}.

Definition throw {A} (e : exn) : M A :=
  fun w => {| res := Throw e; world := w; events := [] |}.

(** [const x = await m; k(x)]: an error thrown by [m] skips [k]. *)
Definition bind {A B} (m : M A) (k : A -> M B) : M B :=
  fun w =>
    match m w with
    | {| res := Ok a; world := w1; events := evs1 |} =>
        match k a w1 with
        | {| res := r; world := w2; events := evs2 |} =>
            {| res := r; world := w2; events := evs1 ++ evs2 |}
        end
    | {| res := Throw e; world := w1; events := evs1 |} =>
        {| res := Throw e; world := w1; events := evs1 |}
    end.

(** [try { m } catch (error) { h(error) }] *)
Definition try_catch {A} (m : M A) (h : exn -> M A) : M A :=
  fun w =>
    match m w with
    | {| res := Ok a; world := w1; events := evs1 |} =>
        {| res := Ok a; world := w1; events := evs1 |}
    | {| res := Throw e; world := w1; events := evs1 |} =>
        match h e w1 with
        | {| res := r; world := w2; events := evs2 |} =>
            {| res := r; world := w2; events := evs1 ++ evs2 |}
        end
    end.

Definition emit (ev : event) : M unit :=
  fun w => {| res := Ok tt; world := w; events := [ev] |}.

Notation "x <- m ;; k" := (bind m (fun x => k))
  (at level 100, m at next level, right associativity).
Notation "m ;; k" := (bind m (fun _ => k))
  (at level 100, right associativity).

(** [for (const x of xs) { await body(x) }] *)
Fixpoint for_of {A} (xs : list A) (body : A -> M unit) : M unit :=
  match xs with
  | [] => ret tt
  | x :: rest => body x ;; for_of rest body
  end.

Section Program.

Variable env : Env.

(** *** Runtime services *)

Definition logger_info (msg : string) : M unit := emit (EvLog Info msg None).
Definition logger_debug (msg : string) : M unit := emit (EvLog Debug msg None).
Definition logger_error (msg : string) (err : option exn) : M unit :=
  emit (EvLog Err msg err).

(** [Date.now()] *)
Definition Date_now : M Z :=
  fun w => {| res := Ok (now env (clock w));
              world := {| store := store w; clock := S (clock w) |};
              events := [] |}.

(** [fetch(url, { headers })]: a GET request. *)
Definition fetch (url : string) (headers : Headers) : M Response :=
  emit (EvFetch url headers) ;;
  match http env url headers with
  | Rejected e => throw e
  | Resolved r => ret r
  end.

(** [response.ok] *)
Definition ok (r : Response) : bool :=
  bool_decide (200 <= status r <= 299).

(** [response.json()] *)
Definition response_json (r : Response) : M json :=
  match body r with
  | Ok j => ret j
  | Throw e => throw e
  end.

(** *** Firestore *)

(** The ids of the top-level collections that hold a document. *)
Definition collection_ids (s : gmap DocRef json) : gset string :=
  set_map fst (dom s).

(** The collections of a store as the client returns them: sorted by id. *)
Definition collection_list (s : gmap DocRef json) : list string :=
  merge_sort (fun a b => Is_true (collection_id_le env a b))
    (elements (collection_ids s)).

(** [firestore.listCollections()] *)
Definition listCollections : M (list string) :=
  emit EvListCollections ;;
  match listCollections_error env with
  | Some e => throw e
  | None => fun w => ret (collection_list (store w)) w
  end.

(** The documents of collection [c] as a read returns them: sorted by name. *)
Definition collection_docs (c : string) (s : gmap DocRef json) : list (DocRef * json) :=
  merge_sort (fun d1 d2 => Is_true (document_name_le env d1.1.2 d2.1.2))
    (map_to_list (filter (fun kv => kv.1.1 = c) s)).

(** [collection.get()]: the documents of the collection, as [snapshot.docs]. *)
Definition collection_get (c : string) : M (list (DocRef * json)) :=
  emit (EvCollectionGet c) ;;
  match get_error env c with
  | Some e => throw e
  | None => fun w => ret (collection_docs c (store w)) w
  end.

(** A write batch holds the references queued by [batch.delete]. *)
Abbreviation WriteBatch := (list DocRef).

Definition firestore_batch : WriteBatch := [].

Definition batch_delete (b : WriteBatch) (r : DocRef) : WriteBatch := b ++ [r].

Definition apply_deletes (b : WriteBatch) (s : gmap DocRef json) : gmap DocRef json :=
  foldl (fun acc r => delete r acc) s b.

(** [batch.commit()]: all queued deletes are applied, or none is. *)
Definition batch_commit (b : WriteBatch) : M unit :=
  emit (EvBatchCommit b) ;;
  match commit_error env b with
  | Some e => throw e
  | None =>
      fun w => {| res := Ok tt;
                  world := {| store := apply_deletes b (store w); clock := clock w |};
                  events := [] |}
  end.

(** [firestore.collection(c).doc(d).set(data)]: full overwrite. *)
Definition doc_set (r : DocRef) (data : json) : M unit :=
  emit (EvDocSet r data) ;;
  match set_error env r data with
  | Some e => throw e
  | None =>
      fun w => {| res := Ok tt;
                  world := {| store := <[r := data]> (store w); clock := clock w |};
                  events := [] |}
  end.

(** *** The program *)

Definition SPACEX_LAUNCH_URL : string := "https://api.spacexdata.com/v3/missions".
Definition NASA_APOD_URL : string :=
  "https://api.nasa.gov/planetary/apod?api_key=" +:+ NASA_API_KEY env.
Definition SPACEX_HIST_URL : string := "https://api.spacexdata.com/v4/history".
Definition NASA_EONET_URL : string :=
  "https://eonet.gsfc.nasa.gov/api/v3/categories/severeStorms".

(** The body of the [for] loop of [clearFirestore]. *)
Definition clearCollection (collection : string) : M unit :=
  snapshot <- collection_get collection ;;
  let batch := firestore_batch in
  let batch := foldl (fun b doc => batch_delete b doc.1) batch snapshot in
  batch_commit batch ;;
  logger_info ("Cleared collection: " +:+ collection).

Definition clearFirestore : M unit :=
  collections <- listCollections ;;
  for_of collections clearCollection.

(** [JSON.stringify(j).slice(0, 100)] *)
Definition preview (j : json) : string :=
  String_slice env (JSON_stringify env j) 0 100.

Definition fetchWithLogging (url apiName : string) (headers : Headers) : M json :=
  startTime <- Date_now ;;
  logger_info ("Starting to fetch data from " +:+ apiName +:+ ": " +:+ url) ;;
  try_catch
    (response <- fetch url headers ;;
     t <- Date_now ;;
     let elapsedTime := t - startTime in
     (if negb (ok response)
      then throw (Error ("Failed to fetch " +:+ apiName +:+ ", status: "
                         +:+ pretty (status response)))
      else ret tt) ;;
     jsonData <- response_json response ;;
     logger_info (apiName +:+ " fetched successfully in "
                  +:+ pretty elapsedTime +:+ "ms") ;;
     logger_debug (apiName +:+ " returned data: "
                   +:+ preview jsonData +:+ "...") ;;
     ret jsonData)
    (fun error =>
       t <- Date_now ;;
       let elapsedTime := t - startTime in
       logger_error ("Error fetching " +:+ apiName +:+ " after "
                     +:+ pretty elapsedTime +:+ "ms: " +:+ exn_toString error) None ;;
       throw error).

(** The object literal returned by [fetchSpaceNews]. *)
Definition SpaceNews (nasa spacex spacexHistory eonet : json) : json :=
  JObject [("nasa", nasa); ("spacex", spacex);
           ("spacexHistory", spacexHistory); ("eonet", eonet)].

Definition fetchSpaceNews : M (option json) :=
  try_catch
    (logger_info "Starting to fetch all space-related data..." ;;
     nasaData <- fetchWithLogging NASA_APOD_URL "NASA APOD" [] ;;
     logger_info ("NASA data fetched: " +:+ preview nasaData) ;;
     spacexData <- fetchWithLogging SPACEX_LAUNCH_URL "SpaceX Launch" [] ;;
     logger_info ("SpaceX Launch data fetched: " +:+ preview spacexData) ;;
     spacexHistoryData <- fetchWithLogging SPACEX_HIST_URL "SpaceX History" [] ;;
     logger_info ("SpaceX History data fetched: " +:+ preview spacexHistoryData) ;;
     eonetData <- fetchWithLogging NASA_EONET_URL "NASA EONET" [] ;;
     logger_info ("NASA EONET data fetched: " +:+ preview eonetData) ;;
     ret (Some (SpaceNews nasaData spacexData spacexHistoryData eonetData)))
    (fun error =>
       logger_error "Error fetching space news:" (Some error) ;;
       ret None).

(** The fixed address of the snapshot. *)
Definition latest : DocRef := ("spaceNews", "latest").

Definition fetchAndStoreSpaceNews : M unit :=
  try_catch
    (clearFirestore ;;
     spaceNews <- fetchSpaceNews ;;
     match spaceNews with
     | Some doc =>
         doc_set latest doc ;;
         logger_info "Space news successfully stored in Firestore."
     | None => ret tt
     end)
    (fun error => logger_error "Error storing space news:" (Some error)).

(** [res.status(code).send(text)] *)
Definition res_send (code : Z) (text : string) : M unit := emit (EvSend code text).

Definition fetchNewsHandler : M unit :=
  try_catch
    (fetchAndStoreSpaceNews ;;
     res_send 200 "Space news fetched and stored.")
    (fun error => res_send 500 "Error fetching space news.").

Definition scheduledApiFetch : M unit :=
  try_catch
    (fetchAndStoreSpaceNews ;;
     logger_info "Space news scheduled fetch completed.")
    (fun error => logger_error "Error fetching space news on schedule:" (Some error)).

End Program.

(** ** Observing a run *)

(** Log lines are a side channel; what is left of a trace without them are
    the calls made on the store, on the network and on the response. *)
Definition is_log (ev : event) : bool :=
  match ev with EvLog _ _ _ => true | _ => false end.

Definition effects (evs : list event) : list event :=
  filter (fun ev => is_log ev = false) evs.

(** The calls [clearFirestore] makes on the store. *)
Definition is_clear (ev : event) : bool :=
  match ev with
  | EvListCollections | EvCollectionGet _ | EvBatchCommit _ => true
  | _ => false
  end.

Definition is_write (ev : event) : bool :=
  match ev with EvDocSet _ _ => true | _ => false end.

(** What was sent on the HTTP response. *)
Definition responses (evs : list event) : list (Z * string) :=
  omap (fun ev => match ev with EvSend code text => Some (code, text) | _ => None end) evs.

Definition failed {A} (o : Out A) : bool :=
  match res o with Throw _ => true | Ok _ => false end.

(** The four endpoints in the order [fetchSpaceNews] requests them. *)
Definition endpoints (env : Env) : list string :=
  [NASA_APOD_URL env; SPACEX_LAUNCH_URL; SPACEX_HIST_URL; NASA_EONET_URL].

(** The JSON value a header-less GET of [url] yields in [env], if it yields
    one: the request resolves, the status is 2xx and the body is JSON. *)
Definition fetch_value (env : Env) (url : string) : option json :=
  match http env url [] with
  | Resolved r =>
      if ok r then match body r with Ok j => Some j | Throw _ => None end
      else None
  | Rejected _ => None
  end.

(** The endpoints a sequential sweep over [urls] requests: it stops after
    the first one that yields no value. *)
Fixpoint until_failure (env : Env) (urls : list string) : list string :=
  match urls with
  | [] => []
  | url :: rest =>
      url :: match fetch_value env url with
             | Some _ => until_failure env rest
             | None => []
             end
  end.

(** The requests of one aggregation. *)
Definition sweep (env : Env) : list event :=
  (fun url => EvFetch url []) <$> until_failure env (endpoints env).

(** The snapshot assembled from the four values, when all four are there. *)
Definition aggregate (env : Env) : option json :=
  nasa ← fetch_value env (NASA_APOD_URL env);
  spacex ← fetch_value env SPACEX_LAUNCH_URL;
  spacexHistory ← fetch_value env SPACEX_HIST_URL;
  eonet ← fetch_value env NASA_EONET_URL;
  Some (SpaceNews nasa spacex spacexHistory eonet).

(** The documents of the store outside the collections [cs]. *)
Definition without_collections (cs : list string) (s : gmap DocRef json) : gmap DocRef json :=
  filter (fun kv => kv.1.1 ∉ cs) s.

(** The two entry points, and a history of triggers each met by its own
    environment. *)
Inductive trigger : Type := OnDemand | Scheduled.

Definition run (env : Env) (t : trigger) : M unit :=
  match t with
  | OnDemand => fetchNewsHandler env
  | Scheduled => scheduledApiFetch env
  end.

Fixpoint run_all (runs : list (Env * trigger)) (w : World) : World :=
  match runs with
  | [] => w
  | (env, t) :: rest => run_all rest (world (run env t w))
  end.

(** ** Test doubles *)

Definition fetch_failed : exn := {| name := "TypeError"; message := "fetch failed" |}.

(** A fetch client answering from a table of URLs; any other URL is
    unreachable. *)
Definition mock_http (table : list (string * Response)) : string -> Headers -> HttpOutcome :=
  fun url _ =>
    match list_find (fun entry => entry.1 = url) table with
    | Some (_, (_, r)) => Resolved r
    | None => Rejected fetch_failed
    end.

Definition mock_env (table : list (string * Response))
    (commit_err : list DocRef -> option exn) : Env :=
  {| NASA_API_KEY := "DEMO_KEY";
     now := fun n => 1000 * Z.of_nat n;
     JSON_stringify := fun _ => "{}";
     String_slice := fun s i j => String.substring (Z.to_nat i) (Z.to_nat (j - i)) s;
     collection_id_le := String.leb;
     document_name_le := String.leb;
     http := mock_http table;
     listCollections_error := None;
     get_error := fun _ => None;
     commit_error := commit_err;
     set_error := fun _ _ => None |}.

Definition json_ok (j : json) : Response := {| status := 200; body := Ok j |}.

Definition image_T : json :=
  JObject [("title", JString "T"); ("explanation", JString "E");
           ("date", JString "2024-01-01")].
Definition launch_N : json :=
  JObject [("name", JString "N"); ("details", JString "D");
           ("date_utc", JString "2024-01-02T00:00:00Z")].
Definition history_H1 : json :=
  JArray [JObject [("event_date_utc", JString "2023-01-01");
                   ("title", JString "H1"); ("details", JString "d1")]].
Definition no_events : json := JArray [].

(** All four endpoints answer. *)
Definition all_up : list (string * Response) :=
  [("https://api.nasa.gov/planetary/apod?api_key=DEMO_KEY", json_ok image_T);
   (SPACEX_LAUNCH_URL, json_ok launch_N);
   (SPACEX_HIST_URL, json_ok history_H1);
   (NASA_EONET_URL, json_ok no_events)].

(** The third endpoint answers 500. *)
Definition history_down : list (string * Response) :=
  [("https://api.nasa.gov/planetary/apod?api_key=DEMO_KEY", json_ok image_T);
   (SPACEX_LAUNCH_URL, json_ok launch_N);
   (SPACEX_HIST_URL, {| status := 500; body := Ok JNull |});
   (NASA_EONET_URL, json_ok no_events)].

Definition healthy_store : list DocRef -> option exn := fun _ => None.

(** The store rejects a batch that deletes a document of collection [c]. *)
Definition rejects_collection (c : string) : list DocRef -> option exn :=
  fun b =>
    if decide (Exists (fun r => r.1 = c) b)
    then Some {| name := "Error"; message := "UNAVAILABLE" |}
    else None.

(** Every endpoint and the store answer. *)
Definition all_up_env : Env := mock_env all_up healthy_store.

(** The launch-history endpoint answers 500; the store is healthy. *)
Definition history_down_env : Env := mock_env history_down healthy_store.

(** Every endpoint answers; the store rejects deletes in [archive]. *)
Definition archive_locked_env : Env := mock_env all_up (rejects_collection "archive").

(** Every endpoint answers; the store rejects deletes in [spaceNews]. *)
Definition news_locked_env : Env := mock_env all_up (rejects_collection "spaceNews").

Definition empty_world : World := {| store := ∅; clock := 0 |}.

(** A store holding an older snapshot and documents of another collection. *)
Definition seeded_world : World :=
  {| store := <[("archive", "1") := JString "old"]>
                (<[("archive", "2") := JString "older"]>
                  (<[("spaceNews", "latest") := JString "stale"]> ∅));
     clock := 0 |}.

(** ** Further observers *)

(** The requests of a trace, each with its headers. *)
Definition requests (evs : list event) : list (string * Headers) :=
  omap (fun ev => match ev with EvFetch url h => Some (url, h) | _ => None end) evs.

(** The lines logged at error level. *)
Definition is_error_line (ev : event) : bool :=
  match ev with EvLog Err _ _ => true | _ => false end.

Definition error_lines (evs : list event) : list event :=
  filter (fun ev => is_error_line ev = true) evs.

(** The errors handed to [logger.error(msg, error)], with their message. *)
Definition reports (evs : list event) : list (string * exn) :=
  omap (fun ev => match ev with EvLog Err msg (Some e) => Some (msg, e) | _ => None end) evs.

(** The references of the documents a read of collection [c] returns. *)
Definition collection_refs (env : Env) (c : string) (s : gmap DocRef json) : list DocRef :=
  (collection_docs env c s).*1.

(** What clearing the collections [cs] of store [s] issues when nothing is
    rejected: per collection a read, the commit of its documents, a log line. *)
Definition clear_trace (env : Env) (s : gmap DocRef json) (cs : list string) : list event :=
  flat_map (fun c => [EvCollectionGet c; EvBatchCommit (collection_refs env c s);
                      EvLog Info ("Cleared collection: " +:+ c) None]) cs.

(** The log line that follows the commit of collection [c]. *)
Definition cleared_line (c : string) : event :=
  EvLog Info ("Cleared collection: " +:+ c) None.

(** [value[key]] on an object: the value of its field [key], if it has one. *)
Definition json_field (key : string) (j : json) : option json :=
  match j with
  | JObject fields =>
      match list_find (fun kv => kv.1 = key) fields with
      | Some (_, (_, v)) => Some v
      | None => None
      end
  | _ => None
  end.

(** ** Start-up

    The top-level statements of the module: the configuration is read, and
    the Admin SDK is initialised unless an app is registered already. *)

(** [functions.config()]: a section may be missing, and so may its key. *)
Record NasaSection : Type := { api_key : option string }.
Record ServiceAccountSection : Type := { key_path : option string }.
Record Config : Type := {
  nasa : option NasaSection;
  service_account : option ServiceAccountSection
}.

(** The options [initializeApp] is called with. *)
Inductive credential : Type :=
| ApplicationDefault
| Cert (serviceAccount : json).

(** The outside of start-up: what [functions.config()] returns or throws,
    the file system, [JSON.parse], the check [admin.credential.cert] makes on
    a service account, the [TypeError] raised for reading a property of
    [undefined], the error, if any, with which [initializeApp] rejects its
    options, and the one it raises when the default app exists. *)
Record Host : Type := {
  config : Res Config;
  readFileSync : string -> Res string;
  JSON_parse : string -> Res json;
  cert_error : json -> option exn;
  undefined_property : string -> exn;
  initializeApp_error : credential -> option exn;
  duplicate_app : exn
}.

(** The process: [admin.apps], the files read so far, the lines logged. *)
Record Process : Type := {
  apps : list credential;
  reads : list string;
  logged : list event
}.

Record Started : Type := { outcome : Res (option string); process : Process }.

(** [admin.initializeApp(options)] *)
Definition initializeApp (h : Host) (options : credential) (p : Process) : Res Process :=
  match apps p with
  | [] =>
      match initializeApp_error h options with
      | Some e => Throw e
      | None => Ok {| apps := [options]; reads := reads p; logged := logged p |}
      end
  | _ :: _ => Throw (duplicate_app h)
  end.

(** A string is truthy unless it is absent or empty. *)
Definition truthy (v : option string) : bool :=
  match v with
  | Some s => negb (bool_decide (s = ""))
  | None => false
  end.

Definition log_line (ev : event) (p : Process) : Process :=
  {| apps := apps p; reads := reads p; logged := logged p ++ [ev] |}.

(** The statements of lines 42 to 57; the result is [NASA_API_KEY]. *)
Definition startup (h : Host) (p : Process) : Started :=
  match config h with
  | Throw e => {| outcome := Throw e; process := p |}
  | Ok configuration =>
  match nasa configuration with
  | None => {| outcome := Throw (undefined_property h "api_key"); process := p |}
  | Some nasa_section =>
  let NASA_API_KEY := api_key nasa_section in
  match service_account configuration with
  | None => {| outcome := Throw (undefined_property h "key_path"); process := p |}
  | Some sa_section =>
  let serviceAccountKeyPath := key_path sa_section in
  match apps p with
  | _ :: _ => {| outcome := Ok NASA_API_KEY; process := p |}
  | [] =>
      if truthy serviceAccountKeyPath then
        let path := default "" serviceAccountKeyPath in
        let p1 := {| apps := apps p; reads := reads p ++ [path]; logged := logged p |} in
        match readFileSync h path with
        | Throw e => {| outcome := Throw e; process := p1 |}
        | Ok text =>
        match JSON_parse h text with
        | Throw e => {| outcome := Throw e; process := p1 |}
        | Ok serviceAccount =>
        match cert_error h serviceAccount with
        | Some e => {| outcome := Throw e; process := p1 |}
        | None =>
        match initializeApp h (Cert serviceAccount) p1 with
        | Throw e => {| outcome := Throw e; process := p1 |}
        | Ok p2 =>
            {| outcome := Ok NASA_API_KEY;
               process := log_line (EvLog Info
                 "Firebase Admin SDK initialized with service account key." None) p2 |}
        end end end end
      else
        match initializeApp h ApplicationDefault p with
        | Throw e => {| outcome := Throw e; process := p |}
        | Ok p2 =>
            {| outcome := Ok NASA_API_KEY;
               process := log_line (EvLog Warn
                 "No service account key provided. Using default credentials." None) p2 |}
        end
  end end end end.

(** The error, if any, met on the way from the key file to a credential:
    reading the file, parsing it, checking the service account. *)
Definition key_file_error (h : Host) (path : string) : option exn :=
  match readFileSync h path with
  | Throw e => Some e
  | Ok text =>
      match JSON_parse h text with
      | Throw e => Some e
      | Ok serviceAccount => cert_error h serviceAccount
      end
  end.

(** Test doubles for start-up. *)
Definition no_property (key : string) : exn :=
  {| name := "TypeError";
     message := "Cannot read properties of undefined (reading '" +:+ key +:+ "')" |}.

Definition mock_host (c : Config) (files : list (string * string)) : Host :=
  {| config := Ok c;
     readFileSync := fun path =>
       match list_find (fun entry => entry.1 = path) files with
       | Some (_, (_, text)) => Ok text
       | None => Throw {| name := "Error"; message := "ENOENT" |}
       end;
     JSON_parse := fun text =>
       if decide (text = "{}") then Ok (JObject [])
       else Throw {| name := "SyntaxError"; message := "Unexpected token" |};
     cert_error := fun _ => None;
     undefined_property := no_property;
     initializeApp_error := fun _ => None;
     duplicate_app := {| name := "FirebaseAppError"; message := "app/duplicate-app" |} |}.

Definition keyed_config : Config :=
  {| nasa := Some {| api_key := Some "DEMO_KEY" |};
     service_account := Some {| key_path := Some "/secrets/sa.json" |} |}.

Definition fresh_process : Process := {| apps := []; reads := []; logged := [] |}.

(** * Properties *)

(** ** The store under batched deletes *)

Lemma foldl_batch_delete (docs : list (DocRef * json)) (acc : list DocRef) :
  foldl (fun b doc => batch_delete b doc.1) acc docs = acc ++ docs.*1.
Proof.
  revert acc. induction docs as [|d docs IH]; intros acc; simpl.
  - by rewrite app_nil_r.
  - rewrite IH. unfold batch_delete. by rewrite <- app_assoc.
Qed.

Lemma lookup_apply_deletes (b : list DocRef) (s : gmap DocRef json) (k : DocRef) :
  apply_deletes b s !! k = if decide (k ∈ b) then None else s !! k.
Proof.
  unfold apply_deletes. revert s. induction b as [|r b IH]; intros s; simpl.
  - done.
  - rewrite IH. destruct (decide (k = r)) as [->|Hne].
    + rewrite lookup_delete_eq. clear IH.
      rewrite (decide_True (P := r ∈ r :: b)) by (by left).
      by destruct (decide (r ∈ b)).
    + rewrite lookup_delete_ne by done. clear IH.
      destruct (decide (k ∈ b)) as [Hb|Hb].
      * rewrite decide_True; [done | by right].
      * rewrite decide_False; [done|]. by intros [?|?]%elem_of_cons.
Qed.

(** Deleting the documents a collection lists removes that collection and
    nothing else. *)
Lemma delete_collection (c : string) (cs : list string) (s : gmap DocRef json) :
  let s1 := without_collections cs s in
  apply_deletes (map_to_list (filter (fun kv => kv.1.1 = c) s1)).*1 s1
  = without_collections (cs ++ [c]) s.
Proof.
  simpl. apply map_eq. intros k. rewrite lookup_apply_deletes.
  unfold without_collections.
  destruct (s !! k) as [x|] eqn:Hk.
  - destruct (decide (k.1 ∈ cs)) as [Hcs|Hcs].
    + rewrite (proj2 (map_lookup_filter_None _ s k)).
      2:{ right. intros y Hy. simpl. by intros ?. }
      rewrite (proj2 (map_lookup_filter_None _ s k)).
      2:{ right. intros y Hy. simpl. rewrite elem_of_app. tauto. }
      by case_decide.
    + destruct (decide (k.1 = c)) as [Hc|Hc].
      * rewrite (proj2 (map_lookup_filter_None (fun kv => kv.1.1 ∉ cs ++ [c]) s k)).
        2:{ right. intros y Hy. simpl. rewrite elem_of_app, list_elem_of_singleton. tauto. }
        rewrite decide_True; [done|].
        apply list_elem_of_fmap. exists (k, x). split; [done|].
        apply elem_of_map_to_list. apply map_lookup_filter_Some. split; [|done].
        apply map_lookup_filter_Some. done.
      * rewrite decide_False.
        2:{ intros Hin. apply list_elem_of_fmap in Hin as [[k' y] [-> Hin]].
            apply elem_of_map_to_list, map_lookup_filter_Some in Hin. simpl in *.
            tauto. }
        transitivity (Some x).
        -- apply map_lookup_filter_Some. done.
        -- symmetry. apply map_lookup_filter_Some. split; [done|]. simpl.
           rewrite elem_of_app, list_elem_of_singleton. tauto.
  - rewrite (proj2 (map_lookup_filter_None _ s k)) by (by left).
    rewrite (proj2 (map_lookup_filter_None _ s k)) by (by left).
    by case_decide.
Qed.

(** The same for any batch that holds the documents of the collection, in
    whatever order. *)
Lemma delete_collection_batch (c : string) (cs : list string) (s : gmap DocRef json)
    (b : list DocRef) :
  let s1 := without_collections cs s in
  (∀ k, k ∈ b ↔ k ∈ (map_to_list (filter (fun kv => kv.1.1 = c) s1)).*1) →
  apply_deletes b s1 = without_collections (cs ++ [c]) s.
Proof.
  cbn zeta. intros Hb. rewrite <- delete_collection. apply map_eq. intros k.
  rewrite !lookup_apply_deletes.
  destruct (decide (k ∈ b)) as [Hin|Hout].
  - rewrite decide_True; [done | by apply Hb].
  - rewrite decide_False; [done | by rewrite <- Hb].
Qed.

Lemma collection_docs_refs (env : Env) (c : string) (s : gmap DocRef json) (k : DocRef) :
  k ∈ (collection_docs env c s).*1 ↔
  k ∈ (map_to_list (filter (fun kv => kv.1.1 = c) s)).*1.
Proof. unfold collection_docs. by rewrite merge_sort_Permutation. Qed.

Lemma collection_list_elem (env : Env) (s : gmap DocRef json) (c : string) :
  c ∈ collection_list env s ↔ c ∈ collection_ids s.
Proof. unfold collection_list. by rewrite merge_sort_Permutation, elem_of_elements. Qed.

Lemma collection_list_NoDup (env : Env) (s : gmap DocRef json) :
  NoDup (collection_list env s).
Proof. unfold collection_list. rewrite merge_sort_Permutation. apply NoDup_elements. Qed.

Lemma collection_list_empty (env : Env) : collection_list env ∅ = [].
Proof. reflexivity. Qed.

Lemma collection_ids_spec (s : gmap DocRef json) (c : string) :
  c ∈ collection_ids s ↔ ∃ k, k.1 = c ∧ is_Some (s !! k).
Proof.
  unfold collection_ids. rewrite elem_of_map. split.
  - intros (k & -> & Hk). exists k. split; [done|]. by apply elem_of_dom.
  - intros (k & <- & Hk). exists k. split; [done|]. by apply elem_of_dom.
Qed.

Lemma without_collections_nil (s : gmap DocRef json) : without_collections [] s = s.
Proof.
  unfold without_collections. apply map_filter_id. intros k x _. simpl.
  apply not_elem_of_nil.
Qed.

Lemma without_collections_subseteq (cs : list string) (s : gmap DocRef json) :
  without_collections cs s ⊆ s.
Proof. apply map_filter_subseteq. Qed.

(** Removing every collection that holds a document leaves nothing. *)
Lemma without_collections_all (env : Env) (s : gmap DocRef json) :
  without_collections (collection_list env s) s = ∅.
Proof.
  apply map_empty. intros k. apply map_lookup_filter_None.
  right. intros x Hx. simpl. intros Hout. apply Hout.
  apply collection_list_elem, collection_ids_spec. exists k. eauto.
Qed.

(** ** Running the monad *)

Lemma bind_Ok {A B} (m : M A) (k : A → M B) (w : World) (a : A) :
  res (m w) = Ok a →
  bind m k w =
    {| res := res (k a (world (m w)));
       world := world (k a (world (m w)));
       events := events (m w) ++ events (k a (world (m w))) |}.
Proof.
  unfold bind. destruct (m w) as [r w1 evs1]. cbn [res world events].
  intros ->. by destruct (k a w1).
Qed.

Lemma bind_Throw {A B} (m : M A) (k : A → M B) (w : World) (e : exn) :
  res (m w) = Throw e →
  bind m k w = {| res := Throw e; world := world (m w); events := events (m w) |}.
Proof.
  unfold bind. destruct (m w) as [r w1 evs1]. cbn [res world events]. by intros ->.
Qed.

(** ** Clearing the store *)

Section Clearing.

Variable env : Env.

#[local] Arguments clearCollection : simpl never.

Lemma effects_app (l1 l2 : list event) : effects (l1 ++ l2) = effects l1 ++ effects l2.
Proof. apply filter_app. Qed.

(** One turn of the loop: a rejected read or commit leaves the store as it
    was; otherwise the collection is gone. *)
Lemma clearCollection_spec (c : string) (done : list string)
    (s : gmap DocRef json) (w : World) :
  store w = without_collections done s →
  let o := clearCollection env c w in
  clock (world o) = clock w ∧
  Forall (fun ev => is_clear ev = true) (effects (events o)) ∧
  store (world o) =
    (if failed o then without_collections done s
     else without_collections (done ++ [c]) s).
Proof.
  intros Hs. unfold clearCollection, collection_get, batch_commit, logger_info,
    bind, emit, throw, ret, failed.
  destruct (get_error env c) as [e|]; cbn.
  { repeat split; [|done]. by repeat constructor. }
  rewrite foldl_batch_delete. cbn [app].
  destruct (commit_error env _) as [e|]; cbn.
  { repeat split; [|done]. by repeat constructor. }
  repeat split.
  - by repeat constructor.
  - rewrite Hs. apply delete_collection_batch. intros k. apply collection_docs_refs.
Qed.

(** The loop clears a prefix of the collections it was given: all of them
    when it returns, and it stops at the first rejected call. *)
Lemma for_of_clearCollection_spec (cs done : list string)
    (s : gmap DocRef json) (w : World) :
  store w = without_collections done s →
  let o := for_of cs (clearCollection env) w in
  clock (world o) = clock w ∧
  Forall (fun ev => is_clear ev = true) (effects (events o)) ∧
  ∃ cleared rest,
    cs = cleared ++ rest ∧
    store (world o) = without_collections (done ++ cleared) s ∧
    (if failed o then rest ≠ [] else rest = []).
Proof.
  revert done w. induction cs as [|c cs IH]; intros done w Hs.
  - simpl. repeat split; [constructor|].
    exists [], []. by rewrite (app_nil_r done).
  - destruct (clearCollection_spec c done s w Hs) as (Hclock & Hev & Hstore).
    cbn [for_of]. unfold failed in *.
    destruct (res (clearCollection env c w)) as [[]|e] eqn:Hres.
    + rewrite (bind_Ok _ _ _ _ Hres). cbn [res world events].
      destruct (IH (done ++ [c]) _ Hstore)
        as (Hclock' & Hev' & cleared & rest & -> & Hst & Hrest).
      split; [congruence|]. split.
      { rewrite effects_app. by apply Forall_app. }
      exists (c :: cleared), rest. split; [done|]. split; [|done].
      by rewrite Hst, <- app_assoc.
    + rewrite (bind_Throw _ _ _ _ Hres). cbn [res world events].
      repeat split; [done..|].
      exists [], (c :: cs). by rewrite (app_nil_r done).
Qed.

Lemma listCollections_run (w : World) :
  listCollections env w =
    {| res := match listCollections_error env with
              | Some e => Throw e
              | None => Ok (collection_list env (store w))
              end;
       world := w; events := [EvListCollections] |}.
Proof.
  unfold listCollections, bind, emit, throw, ret.
  by destruct (listCollections_error env).
Qed.

Lemma clearFirestore_spec (w : World) :
  let o := clearFirestore env w in
  clock (world o) = clock w ∧
  Forall (fun ev => is_clear ev = true) (effects (events o)) ∧
  (∃ rest, events o = EvListCollections :: rest) ∧
  ∃ cleared rest,
    collection_list env (store w) = cleared ++ rest ∧
    store (world o) = without_collections cleared (store w) ∧
    (failed o = false → rest = []).
Proof.
  cbn zeta. unfold clearFirestore, failed.
  destruct (listCollections_error env) as [e|] eqn:Hlist.
  - rewrite (bind_Throw _ _ _ e) by (by rewrite listCollections_run, Hlist).
    rewrite listCollections_run. cbn [res world events].
    repeat split; [by repeat constructor | by eexists |].
    exists [], (collection_list env (store w)).
    by rewrite without_collections_nil.
  - rewrite (bind_Ok _ _ _ (collection_list env (store w)))
      by (by rewrite listCollections_run, Hlist).
    rewrite listCollections_run. cbn [res world events].
    pose proof (for_of_clearCollection_spec (collection_list env (store w))
                  [] (store w) w (eq_sym (without_collections_nil _)))
      as (Hclock & Hev & cleared & rest & Hcs & Hst & Hrest).
    unfold failed in Hrest.
    repeat split; [done | by constructor | by eexists |].
    exists cleared, rest. repeat split; [done..|].
    intros Hok. by rewrite Hok in Hrest.
Qed.

(** Clearing starts by listing the collections. *)
Lemma clearFirestore_starts (w : World) :
  ∃ rest, events (clearFirestore env w) = EvListCollections :: rest.
Proof. by destruct (clearFirestore_spec w) as (_ & _ & ? & _). Qed.

(** A clear that returns has emptied the store. *)
Lemma clearFirestore_empties (w : World) :
  failed (clearFirestore env w) = false →
  store (world (clearFirestore env w)) = ∅.
Proof.
  intros Hok.
  destruct (clearFirestore_spec w) as (_ & _ & _ & cleared & rest & Hcs & Hst & Hrest).
  rewrite Hst. rewrite (Hrest Hok), app_nil_r in Hcs. rewrite <- Hcs.
  apply without_collections_all.
Qed.

(** Whatever happens, clearing adds nothing and alters no document. *)
Lemma clearFirestore_subseteq (w : World) :
  store (world (clearFirestore env w)) ⊆ store w.
Proof.
  destruct (clearFirestore_spec w) as (_ & _ & _ & cleared & rest & _ & -> & _).
  apply without_collections_subseteq.
Qed.

(** The line logged after a commit names its collection. *)
Lemma cleared_line_inj (a b : string) : cleared_line a = cleared_line b → a = b.
Proof. unfold cleared_line. intros [= Heq]. by apply (inj (String.app _)) in Heq. Qed.

(** One turn of the loop logs its line exactly when its commit returned. *)
Lemma clearCollection_log (c : string) (w : World) (ev : event) :
  is_log ev = true →
  ev ∈ events (clearCollection env c w) ↔
  failed (clearCollection env c w) = false ∧ ev = cleared_line c.
Proof.
  intros Hlog. unfold clearCollection, collection_get, batch_commit, logger_info,
    bind, emit, throw, ret, failed, cleared_line.
  destruct (get_error env c) as [e|]; cbn [res world events app].
  { rewrite list_elem_of_singleton. split; [by intros -> | by intros [? _]]. }
  destruct (commit_error env _) as [e|]; cbn [res world events app].
  { rewrite !elem_of_cons, elem_of_nil.
    split; [by intros [->|[->|[]]] | by intros [? _]]. }
  rewrite !elem_of_cons, elem_of_nil. split.
  - by intros [->|[->|[->|[]]]].
  - intros [_ ->]. tauto.
Qed.

(** The loop again, with the lines it logs: one per collection cleared. *)
Lemma for_of_clearCollection_cleared (cs done : list string)
    (s : gmap DocRef json) (w : World) :
  store w = without_collections done s →
  let o := for_of cs (clearCollection env) w in
  ∃ cleared rest,
    cs = cleared ++ rest ∧
    store (world o) = without_collections (done ++ cleared) s ∧
    (if failed o then rest ≠ [] else rest = []) ∧
    (∀ ev, is_log ev = true →
           ev ∈ events o ↔ ∃ col, col ∈ cleared ∧ ev = cleared_line col).
Proof.
  revert done w. induction cs as [|c cs IH]; intros gone w Hs.
  - exists [], []. cbn. rewrite (app_nil_r gone). repeat split; [done|..].
    + by intros ?%elem_of_nil.
    + by intros (col & ?%elem_of_nil & _).
  - destruct (clearCollection_spec c gone s w Hs) as (_ & _ & Hstore).
    pose proof (clearCollection_log c w) as Hline.
    cbn [for_of]. unfold failed in *.
    destruct (res (clearCollection env c w)) as [[]|e] eqn:Hres.
    + rewrite (bind_Ok _ _ _ _ Hres). cbn [res world events].
      destruct (IH (gone ++ [c]) _ Hstore) as (cleared & rest & -> & Hst & Hrest & Hlines).
      exists (c :: cleared), rest. split; [done|]. split; [by rewrite Hst, <- app_assoc|].
      split; [done|]. intros ev Hlog.
      rewrite elem_of_app, (Hline ev Hlog), (Hlines ev Hlog). split.
      * intros [[_ ->]|(col & Hcol & ->)]; [exists c | exists col];
          (split; [|done]); [by left | by right].
      * intros (col & [->|Hcol]%elem_of_cons & ->); [by left | right; by exists col].
    + rewrite (bind_Throw _ _ _ _ Hres). cbn [res world events].
      exists [], (c :: cs). rewrite (app_nil_r gone).
      split; [done|]. split; [done|]. split; [done|]. intros ev Hlog.
      rewrite (Hline ev Hlog). split; [by intros [? _]|].
      by intros (col & ?%elem_of_nil & _).
Qed.

(** A clear as a whole: the collections it cleared are those whose line it
    logged; when it fails, one listed collection at least is left. *)
Lemma clearFirestore_cleared (w : World) :
  let o := clearFirestore env w in
  ∃ cleared rest,
    collection_list env (store w) = cleared ++ rest ∧
    store (world o) = without_collections cleared (store w) ∧
    (failed o = true → cleared = [] ∨ rest ≠ []) ∧
    (∀ col, cleared_line col ∈ events o ↔ col ∈ cleared).
Proof.
  cbn zeta. unfold clearFirestore, failed.
  destruct (listCollections_error env) as [e|] eqn:Hlist.
  - rewrite (bind_Throw _ _ _ e) by (by rewrite listCollections_run, Hlist).
    rewrite listCollections_run. cbn [res world events].
    exists [], (collection_list env (store w)).
    rewrite without_collections_nil. split; [done|]. split; [done|].
    split; [by left|]. intros col. rewrite list_elem_of_singleton, elem_of_nil.
    split; [done | by intros []].
  - rewrite (bind_Ok _ _ _ (collection_list env (store w)))
      by (by rewrite listCollections_run, Hlist).
    rewrite listCollections_run. cbn [res world events].
    destruct (for_of_clearCollection_cleared (collection_list env (store w))
                [] (store w) w (eq_sym (without_collections_nil _)))
      as (cleared & rest & Hcs & Hst & Hrest & Hlines).
    unfold failed in Hrest.
    exists cleared, rest. split; [done|]. split; [done|]. split.
    + intros Hfail. right.
      destruct (res (for_of (collection_list env (store w)) (clearCollection env) w));
        [done | exact Hrest].
    + intros col.
      rewrite elem_of_app, list_elem_of_singleton, (Hlines (cleared_line col)) by done.
      split.
      * intros [?|(col' & Hcol' & ->%cleared_line_inj)]; done.
      * intros Hcol. right. by exists col.
Qed.

End Clearing.

(** ** Fetching *)

Lemma effects_log (l : level) (msg : string) (err : option exn) (evs : list event) :
  effects (EvLog l msg err :: evs) = effects evs.
Proof. reflexivity. Qed.

Lemma effects_fetch (url : string) (h : Headers) (evs : list event) :
  effects (EvFetch url h :: evs) = EvFetch url h :: effects evs.
Proof. reflexivity. Qed.

Lemma effects_nil : effects [] = [].
Proof. reflexivity. Qed.

Create Rewrite HintDb effects.
#[local] Hint Rewrite effects_app effects_log effects_fetch effects_nil : effects.

Section Fetching.

Variable env : Env.

(** What one call of [fetchWithLogging] leaves behind: log lines around a
    single request, an untouched store, and the outcome of the request. *)
Lemma fetchWithLogging_run (url apiName : string) (headers : Headers) (w : World) :
  ∃ logs1 logs2 c,
    effects logs1 = [] ∧ effects logs2 = [] ∧
    fetchWithLogging env url apiName headers w =
      {| res := match http env url headers with
                | Rejected e => Throw e
                | Resolved r =>
                    if ok r then body r
                    else Throw (Error ("Failed to fetch " +:+ apiName +:+ ", status: "
                                       +:+ pretty (status r)))
                end;
         world := {| store := store w; clock := c |};
         events := logs1 ++ EvFetch url headers :: logs2 |}.
Proof.
  unfold fetchWithLogging, fetch, response_json, logger_info, logger_debug,
    logger_error, Date_now, try_catch, bind, emit, throw, ret.
  cbn [res world events store clock].
  destruct (http env url headers) as [e|r]; cbn [res world events store clock].
  - eexists [_], [_], _. by repeat split.
  - destruct (ok r); cbn [negb res world events store clock].
    + destruct (body r) as [j|e]; cbn [res world events store clock].
      * eexists [_], [_; _], _. by repeat split.
      * eexists [_], [_], _. by repeat split.
    + eexists [_], [_], _. by repeat split.
Qed.

(** The four URLs differ whatever the API key is. *)
Lemma endpoints_NoDup : NoDup (endpoints env).
Proof.
  unfold endpoints, NASA_APOD_URL, SPACEX_LAUNCH_URL, SPACEX_HIST_URL, NASA_EONET_URL.
  cbn [String.append].
  repeat (apply NoDup_cons; split;
          [ rewrite ?elem_of_cons, elem_of_nil; intros Hin;
            repeat destruct Hin as [Hin|Hin]; try discriminate Hin; exact Hin |]).
  apply NoDup_nil; exact I.
Qed.

Lemma until_failure_first (pre post : list string) (u : string) :
  Forall (fun v => fetch_value env v ≠ None) pre →
  fetch_value env u = None →
  until_failure env (pre ++ u :: post) = pre ++ [u].
Proof.
  intros Hpre Hu. induction Hpre as [|v pre Hv _ IH]; simpl.
  - by rewrite Hu.
  - destruct (fetch_value env v); [by rewrite IH | done].
Qed.

Lemma until_failure_all (urls : list string) :
  Forall (fun v => fetch_value env v ≠ None) urls →
  until_failure env urls = urls.
Proof.
  intros Hall. induction Hall as [|v urls Hv _ IH]; simpl; [done|].
  destruct (fetch_value env v); [by rewrite IH | done].
Qed.

(** A sweep requests a non-empty prefix of the endpoints. *)
Lemma until_failure_take (urls : list string) :
  ∃ n, until_failure env urls = take n urls ∧
       (n ≤ length urls)%nat ∧ (urls ≠ [] → 1 ≤ n)%nat.
Proof.
  induction urls as [|u urls (n & Hn & Hle & _)]; simpl.
  - by exists 0%nat.
  - destruct (fetch_value env u).
    + exists (S n). simpl. rewrite Hn. repeat split; [lia | intros _; lia].
    + exists 1%nat. simpl. rewrite take_0. repeat split; [lia | intros _; lia].
Qed.

Lemma aggregate_Some (doc : json) :
  aggregate env = Some doc →
  Forall (fun v => fetch_value env v ≠ None) (endpoints env).
Proof.
  unfold aggregate, endpoints. intros Hdoc.
  destruct (fetch_value env (NASA_APOD_URL env)) eqn:H1; [|done].
  destruct (fetch_value env SPACEX_LAUNCH_URL) eqn:H2; [|done].
  destruct (fetch_value env SPACEX_HIST_URL) eqn:H3; [|done].
  destruct (fetch_value env NASA_EONET_URL) eqn:H4; [|done].
  repeat constructor; congruence.
Qed.

Lemma aggregate_None (u : string) :
  u ∈ endpoints env → fetch_value env u = None → aggregate env = None.
Proof.
  unfold aggregate, endpoints. rewrite !elem_of_cons, elem_of_nil.
  intros [->|[->|[->|[->|[]]]]] ->; simpl; [done|..];
    repeat (destruct (fetch_value env _); simpl; try done).
Qed.

Lemma aggregate_all :
  Forall (fun v => fetch_value env v ≠ None) (endpoints env) →
  ∃ doc, aggregate env = Some doc.
Proof.
  unfold aggregate, endpoints. intros Hall.
  repeat (apply Forall_cons in Hall as [? Hall]).
  destruct (fetch_value env (NASA_APOD_URL env)); [|done].
  destruct (fetch_value env SPACEX_LAUNCH_URL); [|done].
  destruct (fetch_value env SPACEX_HIST_URL); [|done].
  destruct (fetch_value env NASA_EONET_URL); [|done].
  by eexists.
Qed.

(** The same, read through [fetch_value]. *)
Lemma fetchWithLogging_value (url apiName : string) (w : World) :
  ∃ logs1 logs2 c r,
    effects logs1 = [] ∧ effects logs2 = [] ∧
    fetchWithLogging env url apiName [] w =
      {| res := r; world := {| store := store w; clock := c |};
         events := logs1 ++ EvFetch url [] :: logs2 |} ∧
    match fetch_value env url with
    | Some j => r = Ok j
    | None => ∃ e, r = Throw e
    end.
Proof.
  destruct (fetchWithLogging_run url apiName [] w) as (l1 & l2 & c & H1 & H2 & Heq).
  eexists l1, l2, c, _. repeat split; [done..| exact Heq |].
  unfold fetch_value. destruct (http env url []) as [e|r]; [by eexists|].
  destruct (ok r); [|by eexists]. destruct (body r); [done | by eexists].
Qed.

#[local] Arguments fetchWithLogging : simpl never.

Ltac fetch_step env :=
  match goal with
  | |- context [fetchWithLogging env ?u ?l [] ?w] =>
      let l1 := fresh "logs" in
      let l2 := fresh "logs" in
      let r := fresh "r" in
      let H1 := fresh "Hlogs" in
      let H2 := fresh "Hlogs" in
      let Hr := fresh "Hr" in
      destruct (fetchWithLogging_value u l w) as (l1 & l2 & ? & r & H1 & H2 & -> & Hr);
      destruct (fetch_value env u) as [?|] eqn:?;
      [ subst r | destruct Hr as [? ->] ];
      cbn [res world events store clock]
  end.

(** The aggregation never throws; it requests the endpoints in order up to
    the first failure and returns the assembled snapshot or nothing. *)
Lemma fetchSpaceNews_run (w : World) :
  let o := fetchSpaceNews env w in
  res o = Ok (aggregate env) ∧
  store (world o) = store w ∧
  effects (events o) = sweep env.
Proof.
  unfold fetchSpaceNews, aggregate, sweep, endpoints, until_failure, logger_info, logger_error,
    try_catch, bind, emit, ret.
  cbn [res world events store clock].
  fetch_step env; [fetch_step env; [fetch_step env; [fetch_step env|]|]|];
    cbn [mbind option_bind fmap list_fmap];
    autorewrite with effects;
    repeat match goal with H : effects _ = [] |- _ => rewrite H; clear H end;
    done.
Qed.

(** A failed aggregation reports the error it caught. *)
Lemma fetchSpaceNews_logs_failure (w : World) :
  aggregate env = None →
  ∃ e, EvLog Err "Error fetching space news:" (Some e) ∈ events (fetchSpaceNews env w).
Proof.
  unfold aggregate, fetchSpaceNews, logger_info, logger_error, try_catch, bind, emit, ret.
  cbn [res world events store clock]. intros Hnone.
  fetch_step env; [fetch_step env; [fetch_step env; [fetch_step env|]|]|];
    cbn [mbind option_bind] in Hnone; try discriminate Hnone;
    eexists; rewrite !elem_of_app, !elem_of_cons; tauto.
Qed.

End Fetching.

(** ** The pipeline *)

Section Pipeline.

Variable env : Env.

#[local] Arguments clearFirestore : simpl never.
#[local] Arguments fetchWithLogging : simpl never.
#[local] Arguments fetchSpaceNews : simpl never.
#[local] Arguments fetchAndStoreSpaceNews : simpl never.

Lemma effects_set (r : DocRef) (data : json) (evs : list event) :
  effects (EvDocSet r data :: evs) = EvDocSet r data :: effects evs.
Proof. reflexivity. Qed.

Lemma doc_set_run (r : DocRef) (data : json) (w : World) :
  doc_set env r data w =
    match set_error env r data with
    | Some e => {| res := Throw e; world := w; events := [EvDocSet r data] |}
    | None =>
        {| res := Ok tt;
           world := {| store := <[r := data]> (store w); clock := clock w |};
           events := [EvDocSet r data] |}
    end.
Proof. unfold doc_set, bind, emit, throw. by destruct (set_error env r data). Qed.

(** [fetchAndStoreSpaceNews] path by path: it always returns; after a failed
    clear nothing else is called; without a snapshot nothing is written. *)
Lemma fetchAndStoreSpaceNews_run (w : World) :
  let c := clearFirestore env w in
  let o := fetchAndStoreSpaceNews env w in
  res o = Ok tt ∧
  if failed c
  then store (world o) = store (world c) ∧ effects (events o) = effects (events c)
  else match aggregate env with
       | None =>
           store (world o) = ∅ ∧
           effects (events o) = effects (events c) ++ sweep env
       | Some doc =>
           store (world o) =
             match set_error env latest doc with
             | Some _ => ∅
             | None => {[latest := doc]}
             end ∧
           effects (events o) = effects (events c) ++ sweep env ++ [EvDocSet latest doc]
       end.
Proof.
  cbn zeta. pose proof (clearFirestore_empties env w) as Hempty. revert Hempty.
  unfold fetchAndStoreSpaceNews, try_catch, bind, failed.
  destruct (clearFirestore env w) as [[[]|e] w1 evs1]; cbn [res world events];
    intros Hempty.
  2:{ unfold logger_error, emit. cbn [res world events].
      autorewrite with effects. by rewrite app_nil_r. }
  destruct (fetchSpaceNews_run env w1) as (Hres & Hst & Hev). revert Hres Hst Hev.
  destruct (fetchSpaceNews env w1) as [r2 w2 evs2]; cbn [res world events].
  intros -> Hst Hev.
  destruct (aggregate env) as [doc|].
  - rewrite doc_set_run. unfold logger_info, logger_error, emit.
    destruct (set_error env latest doc) as [e|]; cbn [res world events store];
      autorewrite with effects;
      rewrite ?effects_set, ?effects_nil, ?app_nil_r, Hev, ?Hst, ?Hempty by done; done.
  - unfold ret. cbn [res world events]. autorewrite with effects.
    by rewrite app_nil_r, Hev, Hst, Hempty.
Qed.

(** Neither entry point ever reaches its [catch] branch. *)
Lemma fetchNewsHandler_run (w : World) :
  let o := fetchAndStoreSpaceNews env w in
  fetchNewsHandler env w =
    {| res := Ok tt; world := world o;
       events := events o ++ [EvSend 200 "Space news fetched and stored."] |}.
Proof.
  cbn zeta. destruct (fetchAndStoreSpaceNews_run w) as [Hres _]. revert Hres.
  unfold fetchNewsHandler, try_catch, bind, res_send, emit.
  destruct (fetchAndStoreSpaceNews env w) as [r w1 evs1]; cbn [res world events].
  by intros ->.
Qed.

Lemma scheduledApiFetch_run (w : World) :
  let o := fetchAndStoreSpaceNews env w in
  scheduledApiFetch env w =
    {| res := Ok tt; world := world o;
       events := events o ++ [EvLog Info "Space news scheduled fetch completed." None] |}.
Proof.
  cbn zeta. destruct (fetchAndStoreSpaceNews_run w) as [Hres _]. revert Hres.
  unfold scheduledApiFetch, try_catch, bind, logger_info, emit.
  destruct (fetchAndStoreSpaceNews env w) as [r w1 evs1]; cbn [res world events].
  by intros ->.
Qed.

(** Both entry points leave the store as [fetchAndStoreSpaceNews] left it. *)
Lemma run_world (t : trigger) (w : World) :
  world (run env t w) = world (fetchAndStoreSpaceNews env w).
Proof.
  destruct t; cbn [run];
    [by rewrite fetchNewsHandler_run | by rewrite scheduledApiFetch_run].
Qed.

(** Every failure is reported on the error log by the function that caught
    it. *)
Lemma fetchAndStoreSpaceNews_logs_failure (w : World) :
  let c := clearFirestore env w in
  let f := fetchSpaceNews env (world c) in
  let o := fetchAndStoreSpaceNews env w in
  (∀ e, res c = Throw e → EvLog Err "Error storing space news:" (Some e) ∈ events o) ∧
  (failed c = false → res f = Ok None →
   ∃ e, EvLog Err "Error fetching space news:" (Some e) ∈ events o) ∧
  (∀ doc e, failed c = false → res f = Ok (Some doc) →
            set_error env latest doc = Some e →
            EvLog Err "Error storing space news:" (Some e) ∈ events o).
Proof.
  cbn zeta. unfold fetchAndStoreSpaceNews, try_catch, bind, failed.
  destruct (clearFirestore env w) as [[[]|e0] w1 evs1]; cbn [res world events].
  2:{ unfold logger_error, emit. cbn [res world events].
      split; [|done]. intros e [= ->].
      rewrite elem_of_app, list_elem_of_singleton. tauto. }
  destruct (fetchSpaceNews_run env w1) as (Hres & _ & _).
  pose proof (fetchSpaceNews_logs_failure env w1) as Hlog. revert Hres Hlog.
  destruct (fetchSpaceNews env w1) as [r2 w2 evs2]; cbn [res world events].
  intros -> Hlog. split; [done|]. split.
  - intros _ [= Hagg]. rewrite Hagg. destruct (Hlog Hagg) as [e He]. exists e.
    unfold ret. cbn [res world events]. rewrite !elem_of_app. tauto.
  - intros doc e _ [= Hagg] Hset. rewrite Hagg, doc_set_run, Hset.
    unfold logger_error, emit. cbn [res world events].
    rewrite !elem_of_app, !elem_of_cons. tauto.
Qed.

End Pipeline.

(** * The claims *)

(** C6: every call of the HTTP fetch client issues one GET to the given URL
    with the given headers and leaves the store alone; a rejected request
    propagates its own error; a response whose status is not 2xx fails with
    an error naming the endpoint label and the status code; otherwise the
    result is the body as [response.json()] parsed it, unmodified. *)
Theorem fetchWithLogging_contract (env : Env) (url apiName : string)
    (headers : Headers) (w : World) :
  let o := fetchWithLogging env url apiName headers w in
  effects (events o) = [EvFetch url headers] ∧
  store (world o) = store w ∧
  res o = match http env url headers with
          | Rejected e => Throw e
          | Resolved r =>
              if ok r then body r
              else Throw (Error ("Failed to fetch " +:+ apiName +:+ ", status: "
                                 +:+ pretty (status r)))
          end.
Proof.
  destruct (fetchWithLogging_run env url apiName headers w)
    as (logs1 & logs2 & c & H1 & H2 & Heq).
  cbn zeta. rewrite Heq. cbn [res world events store].
  autorewrite with effects. by rewrite H1, H2.
Qed.

(** C2: when one of the four fetches fails and those before it succeeded,
    the aggregation returns null, the requests made are exactly the endpoints
    up to and including the failing one, and no endpoint after it is
    requested. *)
Theorem fetchSpaceNews_first_failure (env : Env) (w : World)
    (pre post : list string) (u : string) :
  endpoints env = pre ++ u :: post →
  Forall (fun v => fetch_value env v ≠ None) pre →
  fetch_value env u = None →
  let o := fetchSpaceNews env w in
  res o = Ok None ∧
  effects (events o) = (fun url => EvFetch url []) <$> (pre ++ [u]) ∧
  ∀ v h, v ∈ post → EvFetch v h ∉ events o.
Proof.
  intros Hsplit Hpre Hu.
  destruct (fetchSpaceNews_run env w) as (Hres & _ & Hev).
  assert (Hsweep : effects (events (fetchSpaceNews env w))
                   = (fun url => EvFetch url []) <$> (pre ++ [u])).
  { rewrite Hev. unfold sweep. by rewrite Hsplit, until_failure_first. }
  cbn zeta. split; [|split; [done|]].
  - rewrite Hres. f_equal. apply (aggregate_None env u); [|done].
    rewrite Hsplit. apply elem_of_app. right. by left.
  - intros v h Hv Hin.
    assert (Hin' : EvFetch v h ∈ effects (events (fetchSpaceNews env w))).
    { unfold effects. apply list_elem_of_filter. by split. }
    rewrite Hsweep in Hin'. apply list_elem_of_fmap in Hin' as (v' & Heq & Hv').
    injection Heq as -> _.
    pose proof (endpoints_NoDup env) as Hnd. rewrite Hsplit in Hnd.
    apply NoDup_app in Hnd as (_ & Hdisj & Hnd').
    apply NoDup_cons in Hnd' as [Hu' _].
    apply elem_of_app in Hv' as [Hv'|Hv'%list_elem_of_singleton].
    + apply (Hdisj v' Hv'). by right.
    + by subst.
Qed.

(** C8: after a clear that returned, the store holds no document: listing
    the collections gives none and no collection lists a document. *)
Theorem clearFirestore_postcondition (env : Env) (w : World) :
  failed (clearFirestore env w) = false →
  let w' := world (clearFirestore env w) in
  store w' = ∅ ∧
  res (listCollections env w') = Ok [] ∧
  ∀ c, get_error env c = None → res (collection_get env c w') = Ok [].
Proof.
  intros Hok. pose proof (clearFirestore_empties env w Hok) as Hempty.
  cbn zeta. split; [done|]. split.
  - unfold clearFirestore, listCollections, failed, bind, emit, throw, ret in *.
    destruct (listCollections_error env); [done|].
    cbn [res world events]. rewrite Hempty. by vm_compute.
  - intros c Hc. unfold collection_get, bind, emit, ret. rewrite Hc.
    cbn [res world events]. rewrite Hempty. unfold collection_docs.
    by rewrite map_filter_empty, map_to_list_empty.
Qed.


(** C5: the store calls of the clear come first, starting with the listing
    of the collections; then the requests, a prefix of the four endpoints in
    their fixed order; then at most one write.  Nothing follows a failed
    clear, a clear that returned is always followed by a request, a write
    only ever follows all four requests, and when nothing fails all four
    requests and the write are made. *)
Theorem pipeline_order (env : Env) (w : World) :
  let c := clearFirestore env w in
  let o := fetchAndStoreSpaceNews env w in
  ∃ (n : nat) (writes : list event),
    effects (events o) =
      effects (events c) ++ ((fun url => EvFetch url []) <$> take n (endpoints env)) ++ writes ∧
    (∃ rest, effects (events c) = EvListCollections :: rest) ∧
    Forall (fun ev => is_clear ev = true) (effects (events c)) ∧
    Forall (fun ev => is_write ev = true) writes ∧
    (length writes ≤ 1)%nat ∧
    (failed c = true → n = 0%nat ∧ writes = []) ∧
    (failed c = false → (1 ≤ n ≤ 4)%nat) ∧
    (writes ≠ [] → n = 4%nat) ∧
    (failed c = false →
     Forall (fun v => fetch_value env v ≠ None) (endpoints env) →
     n = 4%nat ∧ writes ≠ []).
Proof.
  cbn zeta.
  destruct (fetchAndStoreSpaceNews_run env w) as [_ Hrun].
  destruct (clearFirestore_spec env w) as (_ & Hclear & _).
  destruct (clearFirestore_starts env w) as [rest Hstart].
  assert (Hfirst : ∃ rest, effects (events (clearFirestore env w)) = EvListCollections :: rest).
  { rewrite Hstart. by eexists. }
  destruct (failed (clearFirestore env w)) eqn:Hfailed.
  - destruct Hrun as [_ Hev]. exists 0%nat, []. rewrite Hev. cbn [take fmap list_fmap app].
    rewrite app_nil_r.
    split; [done|]. split; [done|]. split; [done|]. split; [constructor|].
    split; [cbn; lia|]. split; [done|]. split; [done|]. split; done.
  - destruct (aggregate env) as [doc|] eqn:Hagg.
    + destruct Hrun as [_ Hev]. exists 4%nat, [EvDocSet latest doc].
      rewrite Hev. unfold sweep.
      rewrite (until_failure_all env _ (aggregate_Some env doc Hagg)).
      split; [done|]. split; [done|]. split; [done|].
      split; [by repeat constructor|]. split; [cbn; lia|]. split; [done|].
      split; [intros _; lia|]. split; done.
    + destruct Hrun as [_ Hev].
      destruct (until_failure_take env (endpoints env)) as (n & Hn & Hle & Hpos).
      exists n, []. rewrite Hev. unfold sweep. rewrite Hn, app_nil_r.
      split; [done|]. split; [done|]. split; [done|]. split; [constructor|].
      split; [cbn; lia|]. split; [done|].
      split. { intros _. split; [by apply Hpos | exact Hle]. }
      split; [done|].
      intros _ Hall. destruct (aggregate_all env Hall) as [doc Hdoc]. congruence.
Qed.

(** C9 (amended): when the four fetches succeed, the aggregator returns the
    object whose fields [nasa], [spacex], [spacexHistory] and [eonet], in
    that order and with no other field, hold the four fetched values
    unchanged; after a clear that returned, that object is what is written
    at the fixed address, after the four requests, and when the write
    returns it is the store's only document. *)
Theorem snapshot_assembly (env : Env) (w : World)
    (nasa spacex spacexHistory eonet : json) :
  fetch_value env (NASA_APOD_URL env) = Some nasa →
  fetch_value env SPACEX_LAUNCH_URL = Some spacex →
  fetch_value env SPACEX_HIST_URL = Some spacexHistory →
  fetch_value env NASA_EONET_URL = Some eonet →
  let doc := JObject [("nasa", nasa); ("spacex", spacex);
                      ("spacexHistory", spacexHistory); ("eonet", eonet)] in
  let c := clearFirestore env w in
  let o := fetchAndStoreSpaceNews env w in
  res (fetchSpaceNews env w) = Ok (Some doc) ∧
  (failed c = false →
   effects (events o) =
     effects (events c) ++ ((fun url => EvFetch url []) <$> endpoints env)
       ++ [EvDocSet latest doc] ∧
   (set_error env latest doc = None → store (world o) = {[latest := doc]})).
Proof.
  intros H1 H2 H3 H4. cbn zeta.
  assert (Hagg : aggregate env =
                 Some (JObject [("nasa", nasa); ("spacex", spacex);
                                ("spacexHistory", spacexHistory); ("eonet", eonet)])).
  { unfold aggregate. by rewrite H1, H2, H3, H4. }
  destruct (fetchSpaceNews_run env w) as (Hres & _ & _).
  split; [by rewrite Hres, Hagg|].
  intros Hok. destruct (fetchAndStoreSpaceNews_run env w) as [_ Hrun].
  rewrite Hok, Hagg in Hrun. destruct Hrun as [Hst Hev].
  split.
  - rewrite Hev. unfold sweep.
    by rewrite (until_failure_all env _ (aggregate_Some env _ Hagg)).
  - intros Hset. by rewrite Hst, Hset.
Qed.

(** C9, as stated, fails: in the scenario of the four mocked responses the
    snapshot that is returned and written has no field [image], [launch],
    [launchHistory] or [environmentalEvents]; the daily image is its field
    [nasa]. *)
Lemma snapshot_has_no_image_slot :
  ∃ doc,
    res (fetchSpaceNews all_up_env empty_world) = Ok (Some doc) ∧
    filter (fun ev => is_write ev = true)
      (events (fetchAndStoreSpaceNews all_up_env empty_world)) = [EvDocSet latest doc] ∧
    json_field "image" doc = None ∧
    json_field "launch" doc = None ∧
    json_field "launchHistory" doc = None ∧
    json_field "environmentalEvents" doc = None ∧
    json_field "nasa" doc = Some image_T.
Proof.
  eexists. split; [by vm_compute|]. split; by vm_compute.
Qed.

(** C10: [fetchAndStoreSpaceNews] always returns normally; a failed clear,
    a failed aggregation and a failed write are each reported on the error
    log inside it; so the on-demand handler always sends 200 and the
    scheduled handler always logs completion, their [catch] branches never
    running; and when the aggregation returns null no document is written
    and the store stays as the clear left it. *)
Theorem failures_never_propagate (env : Env) (w : World) :
  let c := clearFirestore env w in
  let f := fetchSpaceNews env (world c) in
  let o := fetchAndStoreSpaceNews env w in
  res o = Ok tt ∧
  fetchNewsHandler env w =
    {| res := Ok tt; world := world o;
       events := events o ++ [EvSend 200 "Space news fetched and stored."] |} ∧
  scheduledApiFetch env w =
    {| res := Ok tt; world := world o;
       events := events o ++ [EvLog Info "Space news scheduled fetch completed." None] |} ∧
  (∀ e, res c = Throw e → EvLog Err "Error storing space news:" (Some e) ∈ events o) ∧
  (failed c = false → res f = Ok None →
   ∃ e, EvLog Err "Error fetching space news:" (Some e) ∈ events o) ∧
  (∀ doc e, failed c = false → res f = Ok (Some doc) →
            set_error env latest doc = Some e →
            EvLog Err "Error storing space news:" (Some e) ∈ events o) ∧
  (failed c = false → res f = Ok None →
   (∀ r data, EvDocSet r data ∉ events o) ∧ store (world o) = store (world c)).
Proof.
  cbn zeta.
  destruct (fetchAndStoreSpaceNews_run env w) as [Hres Hrun].
  destruct (fetchAndStoreSpaceNews_logs_failure env w) as (Hl1 & Hl2 & Hl3).
  split; [done|]. split; [apply fetchNewsHandler_run|].
  split; [apply scheduledApiFetch_run|].
  split; [done|]. split; [done|]. split; [done|].
  intros Hok Hnull. rewrite Hok in Hrun.
  destruct (fetchSpaceNews_run env (world (clearFirestore env w))) as (Hf & _ & _).
  rewrite Hf in Hnull. injection Hnull as Hagg. rewrite Hagg in Hrun.
  destruct Hrun as [Hst Hev]. split.
  - intros r data Hin.
    assert (Hin' : EvDocSet r data ∈ effects (events (fetchAndStoreSpaceNews env w))).
    { unfold effects. apply list_elem_of_filter. by split. }
    rewrite Hev in Hin'. apply elem_of_app in Hin' as [Hin'|Hin'].
    + destruct (clearFirestore_spec env w) as (_ & Hclear & _).
      rewrite Forall_forall in Hclear. by specialize (Hclear _ Hin').
    + unfold sweep in Hin'. by apply list_elem_of_fmap in Hin' as (u & ? & _).
  - by rewrite Hst, clearFirestore_empties.
Qed.

(** C4: a store holding at most one document holds at most one document
    after every run, on demand or scheduled, successful or failed, whatever
    the environment of each run. *)
Theorem at_most_one_snapshot (runs : list (Env * trigger)) (w : World) :
  (size (store w) ≤ 1)%nat →
  (size (store (run_all runs w)) ≤ 1)%nat.
Proof.
  revert w. induction runs as [|[env t] runs IH]; intros w Hw; [done|].
  cbn [run_all]. apply IH. rewrite run_world.
  destruct (fetchAndStoreSpaceNews_run env w) as [_ Hrun].
  destruct (failed (clearFirestore env w)).
  - destruct Hrun as [-> _].
    pose proof (map_subseteq_size _ _ (clearFirestore_subseteq env w)). lia.
  - destruct (aggregate env) as [doc|]; destruct Hrun as [-> _].
    + destruct (set_error env latest doc).
      * rewrite map_size_empty. lia.
      * by rewrite map_size_singleton.
    + rewrite map_size_empty. lia.
Qed.

(** C3 (amended): for a run of either entry point, after a failed clear the
    collections whose batch was committed (those whose line was logged) are
    gone and the documents of every other collection are as they were; a
    non-empty store keeps at least one collection untouched, and the store
    is unchanged exactly when no batch was committed.  After a clear that
    returned, a run that fails in the aggregation or in the write leaves the
    store empty. *)
Theorem failed_run_store (env : Env) (t : trigger) (w : World) :
  let c := clearFirestore env w in
  let f := fetchSpaceNews env (world c) in
  let o := run env t w in
  (failed c = true →
   ∃ cleared,
     (∀ col, col ∈ cleared ↔ cleared_line col ∈ events c) ∧
     (∀ col, col ∈ cleared → col ∈ collection_ids (store w)) ∧
     (store w ≠ ∅ → ∃ col, col ∈ collection_ids (store w) ∧ col ∉ cleared) ∧
     store (world o) = without_collections cleared (store w) ∧
     (store (world o) = store w ↔ cleared = [])) ∧
  (failed c = false →
   res f = Ok None ∨
   (∃ doc e, res f = Ok (Some doc) ∧ set_error env latest doc = Some e) →
   store (world o) = ∅).
Proof.
  cbn zeta. rewrite run_world.
  destruct (fetchAndStoreSpaceNews_run env w) as [_ Hrun].
  destruct (clearFirestore_cleared env w) as (cleared & rest & Hcs & Hst & Hrest & Hlines).
  destruct (fetchSpaceNews_run env (world (clearFirestore env w))) as (Hf & _ & _).
  destruct (failed (clearFirestore env w)).
  - split; [|done]. intros _. destruct Hrun as [Hfinal _].
    assert (Hsub : ∀ col, col ∈ cleared → col ∈ collection_ids (store w)).
    { intros col Hcol. apply (collection_list_elem env). rewrite Hcs.
      apply elem_of_app. by left. }
    exists cleared. split; [by intros col; rewrite Hlines|]. split; [done|].
    split; [|split; [by rewrite Hfinal|]].
    + intros Hne. destruct (Hrest eq_refl) as [->|Hrest'].
      * apply map_choose in Hne as (k & v & Hk). exists k.1.
        split; [|apply not_elem_of_nil]. apply collection_ids_spec. exists k. eauto.
      * destruct rest as [|col rest]; [done|]. exists col. split.
        -- apply (collection_list_elem env). rewrite Hcs. apply elem_of_app.
           right. by left.
        -- pose proof (collection_list_NoDup env (store w)) as Hnd. rewrite Hcs in Hnd.
           apply NoDup_app in Hnd as (_ & Hdisj & _). intros Hcol.
           apply (Hdisj col Hcol). by left.
    + rewrite Hfinal, Hst. split.
      * intros Hsame. destruct cleared as [|col cleared]; [done|]. exfalso.
        assert (Hcol : col ∈ collection_ids (store w)) by (apply Hsub; by left).
        apply collection_ids_spec in Hcol as (k & Hk & v & Hv).
        assert (Hgone : without_collections (col :: cleared) (store w) !! k = None).
        { apply map_lookup_filter_None. right. intros x _. simpl. rewrite Hk.
          intros Hout. apply Hout. by left. }
        rewrite Hsame in Hgone. congruence.
      * intros ->. apply without_collections_nil.
  - split; [done|]. intros _ Hfail. rewrite Hf in Hfail.
    destruct Hfail as [[= Hagg]|(doc & e & [= Hagg] & Hset)]; rewrite Hagg in Hrun.
    + by destruct Hrun.
    + destruct Hrun as [-> _]. by rewrite Hset.
Qed.

(** C3, as stated, fails: the batch of [archive] is committed, the store
    then rejects the batch of [spaceNews], the clear throws, and the documents
    of [archive] are already gone when the scheduled run ends. *)
Lemma clearFirestore_not_atomic :
  failed (clearFirestore news_locked_env seeded_world) = true ∧
  store (world (run news_locked_env Scheduled seeded_world)) !! ("archive", "1") = None ∧
  store seeded_world !! ("archive", "1") = Some (JString "old") ∧
  store (world (run news_locked_env Scheduled seeded_world)) ≠ store seeded_world.
Proof.
  split; [by vm_compute|]. split; [by vm_compute|]. split; [by vm_compute|].
  intros Heq. apply (f_equal (fun s => s !! ("archive", "1"))) in Heq.
  vm_compute in Heq. discriminate Heq.
Qed.

(** C1, on the run whose third fetch answers 500: the aggregation fails and
    returns null, and the handler still sends 200 with the success message. *)
Theorem fetchNewsHandler_200_on_failed_fetch :
  fetch_value history_down_env SPACEX_HIST_URL = None ∧
  failed (fetchWithLogging history_down_env SPACEX_HIST_URL "SpaceX History" []
            empty_world) = true ∧
  res (fetchSpaceNews history_down_env empty_world) = Ok None ∧
  responses (events (fetchNewsHandler history_down_env empty_world))
    = [(200, "Space news fetched and stored.")].
Proof. by vm_compute. Qed.

(** ** Witnesses *)

Lemma fetchSpaceNews_first_failure_witness :
  res (fetchSpaceNews history_down_env seeded_world) = Ok None ∧
  effects (events (fetchSpaceNews history_down_env seeded_world)) =
    [EvFetch (NASA_APOD_URL history_down_env) []; EvFetch SPACEX_LAUNCH_URL [];
     EvFetch SPACEX_HIST_URL []] ∧
  ∀ v h, v ∈ [NASA_EONET_URL] →
         EvFetch v h ∉ events (fetchSpaceNews history_down_env seeded_world).
Proof.
  apply (fetchSpaceNews_first_failure history_down_env seeded_world
           [NASA_APOD_URL history_down_env; SPACEX_LAUNCH_URL] [NASA_EONET_URL]
           SPACEX_HIST_URL).
  - reflexivity.
  - repeat constructor; by vm_compute.
  - by vm_compute.
Defined.

Lemma clearFirestore_postcondition_witness :
  store (world (clearFirestore all_up_env seeded_world)) = ∅ ∧
  res (listCollections all_up_env (world (clearFirestore all_up_env seeded_world))) = Ok [] ∧
  ∀ c, get_error all_up_env c = None →
       res (collection_get all_up_env c (world (clearFirestore all_up_env seeded_world)))
       = Ok [].
Proof. apply (clearFirestore_postcondition all_up_env seeded_world). by vm_compute. Defined.


Lemma snapshot_assembly_witness :
  res (fetchSpaceNews all_up_env seeded_world)
    = Ok (Some (JObject
        [("nasa", JObject [("title", JString "T"); ("explanation", JString "E");
                           ("date", JString "2024-01-01")]);
         ("spacex", JObject [("name", JString "N"); ("details", JString "D");
                             ("date_utc", JString "2024-01-02T00:00:00Z")]);
         ("spacexHistory",
          JArray [JObject [("event_date_utc", JString "2023-01-01");
                           ("title", JString "H1"); ("details", JString "d1")]]);
         ("eonet", JArray [])])) ∧
  (failed (clearFirestore all_up_env seeded_world) = false →
   effects (events (fetchAndStoreSpaceNews all_up_env seeded_world)) =
     effects (events (clearFirestore all_up_env seeded_world))
       ++ ((fun url => EvFetch url []) <$> endpoints all_up_env)
       ++ [EvDocSet latest
             (JObject [("nasa", image_T); ("spacex", launch_N);
                       ("spacexHistory", history_H1); ("eonet", no_events)])] ∧
   (set_error all_up_env latest
      (JObject [("nasa", image_T); ("spacex", launch_N);
                ("spacexHistory", history_H1); ("eonet", no_events)]) = None →
    store (world (fetchAndStoreSpaceNews all_up_env seeded_world))
      = {[latest := JObject [("nasa", image_T); ("spacex", launch_N);
                             ("spacexHistory", history_H1); ("eonet", no_events)]]})).
Proof.
  apply (snapshot_assembly all_up_env seeded_world image_T launch_N history_H1 no_events);
    by vm_compute.
Defined.

Lemma at_most_one_snapshot_witness :
  (size (store (run_all [(all_up_env, OnDemand); (archive_locked_env, Scheduled);
                         (history_down_env, OnDemand); (all_up_env, Scheduled)]
                  empty_world)) ≤ 1)%nat.
Proof.
  apply (at_most_one_snapshot _ empty_world). vm_compute. lia.
Defined.

Lemma failed_run_store_witness :
  ∃ cleared,
    (∀ col, col ∈ cleared ↔
            cleared_line col ∈ events (clearFirestore news_locked_env seeded_world)) ∧
    (∀ col, col ∈ cleared → col ∈ collection_ids (store seeded_world)) ∧
    (store seeded_world ≠ ∅ →
     ∃ col, col ∈ collection_ids (store seeded_world) ∧ col ∉ cleared) ∧
    store (world (run news_locked_env OnDemand seeded_world))
      = without_collections cleared (store seeded_world) ∧
    (store (world (run news_locked_env OnDemand seeded_world)) = store seeded_world
     ↔ cleared = []).
Proof.
  apply (proj1 (failed_run_store news_locked_env OnDemand seeded_world)).
  by vm_compute.
Defined.

(** * Further properties *)

(** ** Clearing, call by call *)

Lemma collection_refs_without (env : Env) (c : string) (gone : list string)
    (s : gmap DocRef json) :
  c ∉ gone →
  collection_refs env c (without_collections gone s) = collection_refs env c s.
Proof.
  intros Hc. unfold collection_refs, collection_docs, without_collections. do 3 f_equal.
  apply map_filter_filter_l. intros k x _ Hk. simpl in *. by subst.
Qed.

Lemma clearCollection_events (env : Env) (c : string) (w : World) :
  failed (clearCollection env c w) = false →
  events (clearCollection env c w) =
    [EvCollectionGet c; EvBatchCommit (collection_refs env c (store w));
     EvLog Info ("Cleared collection: " +:+ c) None].
Proof.
  unfold clearCollection, collection_get, batch_commit, logger_info,
    bind, emit, throw, ret, failed, collection_refs.
  destruct (get_error env c) as [e|]; cbn [res world events app]; [done|].
  rewrite foldl_batch_delete. cbn [app].
  by destruct (commit_error env _) as [e|].
Qed.

Lemma for_of_clearCollection_events (env : Env) (cs gone : list string)
    (s : gmap DocRef json) (w : World) :
  store w = without_collections gone s →
  NoDup cs →
  (∀ c, c ∈ cs → c ∉ gone) →
  failed (for_of cs (clearCollection env) w) = false →
  events (for_of cs (clearCollection env) w) = clear_trace env s cs.
Proof.
  revert gone w. induction cs as [|c cs IH]; intros gone w Hs Hnd Hfresh Hok; [done|].
  apply NoDup_cons in Hnd as [Hc Hnd].
  destruct (clearCollection_spec env c gone s w Hs) as (_ & _ & Hst).
  cbn [for_of] in *. unfold failed in Hok, Hst.
  destruct (res (clearCollection env c w)) as [[]|e] eqn:Hres.
  - rewrite (bind_Ok _ _ _ _ Hres) in *. cbn [res world events] in *.
    rewrite clearCollection_events by (unfold failed; by rewrite Hres).
    rewrite (IH (gone ++ [c]) _ Hst Hnd); [| |done].
    + rewrite Hs, collection_refs_without by (apply Hfresh; by left). done.
    + intros c' Hc' [Hin|Hin%list_elem_of_singleton]%elem_of_app.
      * apply (Hfresh c'); [by right | done].
      * by subst.
  - by rewrite (bind_Throw _ _ _ _ Hres) in Hok.
Qed.

(** X3: a clear that returns has issued exactly: the listing, then for each
    collection, in the order the listing returned them, one read, one commit
    deleting the documents that read returned, in that order, and no other,
    and one log line. *)
Theorem clearFirestore_calls (env : Env) (w : World) :
  failed (clearFirestore env w) = false →
  ∃ collections,
    res (listCollections env w) = Ok collections ∧
    (∀ c, c ∈ collections →
          ∃ docs, res (collection_get env c w) = Ok docs ∧
                  collection_refs env c (store w) = docs.*1) ∧
    events (clearFirestore env w) =
      EvListCollections :: clear_trace env (store w) collections.
Proof.
  intros Hok. exists (collection_list env (store w)).
  assert (Hlist : listCollections_error env = None).
  { revert Hok. unfold clearFirestore, failed.
    destruct (listCollections_error env) as [e|] eqn:Hlist; [|done].
    by rewrite (bind_Throw _ _ _ e) by (by rewrite listCollections_run, Hlist). }
  assert (Hloop : failed (for_of (collection_list env (store w)) (clearCollection env) w)
                  = false).
  { revert Hok. unfold clearFirestore, failed.
    rewrite (bind_Ok _ _ _ (collection_list env (store w)))
      by (by rewrite listCollections_run, Hlist).
    by rewrite listCollections_run. }
  assert (Hevents : events (clearFirestore env w) =
            EvListCollections :: clear_trace env (store w) (collection_list env (store w))).
  { unfold clearFirestore.
    rewrite (bind_Ok _ _ _ (collection_list env (store w)))
      by (by rewrite listCollections_run, Hlist).
    rewrite listCollections_run. cbn [res world events app]. f_equal.
    apply (for_of_clearCollection_events env _ []).
    - by rewrite without_collections_nil.
    - apply collection_list_NoDup.
    - intros c _. apply not_elem_of_nil.
    - done. }
  split; [by rewrite listCollections_run, Hlist|]. split; [|done].
  intros c Hc. exists (collection_docs env c (store w)). split; [|done].
  unfold collection_get, bind, emit, throw, ret.
  destruct (get_error env c) as [e|] eqn:Hgeterr; [|done]. exfalso.
  clear Hok Hevents. revert Hloop Hc. generalize (collection_list env (store w)).
  intros cs. revert w. induction cs as [|c' cs IH]; intros w Hloop Hc.
  - by apply elem_of_nil in Hc.
  - cbn [for_of] in Hloop. unfold failed in Hloop.
    destruct (res (clearCollection env c' w)) as [[]|e'] eqn:Hres.
    + rewrite (bind_Ok _ _ _ _ Hres) in Hloop. cbn [res] in Hloop.
      apply elem_of_cons in Hc as [->|Hc].
      * revert Hres. unfold clearCollection, collection_get, bind, emit, throw.
        by rewrite Hgeterr.
      * by apply (IH (world (clearCollection env c' w))).
    + by rewrite (bind_Throw _ _ _ _ Hres) in Hloop.
Qed.

(** X2: on an empty store a clear only lists the collections: it reads and
    commits nothing, leaves the store empty, and fails exactly when the
    listing is rejected. *)
Theorem clearFirestore_empty_store (env : Env) (w : World) :
  store w = ∅ →
  let o := clearFirestore env w in
  events o = [EvListCollections] ∧
  store (world o) = ∅ ∧
  res o = match listCollections_error env with
          | Some e => Throw e
          | None => Ok tt
          end.
Proof.
  intros Hempty. cbn zeta. unfold clearFirestore.
  assert (Hnone : collection_list env (store w) = []).
  { rewrite Hempty. apply collection_list_empty. }
  destruct (listCollections_error env) as [e|] eqn:Hlist.
  - rewrite (bind_Throw _ _ _ e) by (by rewrite listCollections_run, Hlist).
    by rewrite listCollections_run, Hlist.
  - rewrite (bind_Ok _ _ _ (collection_list env (store w)))
      by (by rewrite listCollections_run, Hlist).
    rewrite listCollections_run, Hnone. by cbn.
Qed.

(** X1: whatever happens, a clear creates no document and alters none: a
    document found in the store afterwards was there before with the same
    content. *)
Theorem clearFirestore_only_deletes (env : Env) (w : World) (k : DocRef) (v : json) :
  store (world (clearFirestore env w)) !! k = Some v →
  store w !! k = Some v.
Proof.
  intros Hk. by apply (lookup_weaken _ _ _ _ Hk), clearFirestore_subseteq.
Qed.

(** ** Requests and responses *)

(** An observer that ignores log lines sees the same through [effects]. *)
Lemma omap_effects {B} (g : event → option B) (evs : list event) :
  (∀ l msg err, g (EvLog l msg err) = None) →
  omap g (effects evs) = omap g evs.
Proof.
  intros Hlog. unfold effects. induction evs as [|ev evs IH]; [done|].
  destruct (is_log ev) eqn:Hl.
  - rewrite filter_cons_False by (by rewrite Hl).
    destruct ev; try discriminate Hl. rewrite IH. cbn. by rewrite Hlog.
  - rewrite filter_cons_True by done. cbn. by rewrite IH.
Qed.

Lemma omap_clear_calls {B} (g : event → option B) (evs : list event) :
  (∀ ev, is_clear ev = true → g ev = None) →
  Forall (fun ev => is_clear ev = true) evs →
  omap g evs = [].
Proof.
  intros Hg Hall. induction Hall as [|ev evs Hev _ IH]; [done|].
  cbn. by rewrite (Hg ev Hev), IH.
Qed.

(** The calls of a run, as far as an observer blind to the store calls of
    the clear can tell: the requests of the sweep and possibly the write. *)
Lemma omap_run {B} (g : event → option B) (env : Env) (w : World) :
  (∀ l msg err, g (EvLog l msg err) = None) →
  (∀ ev, is_clear ev = true → g ev = None) →
  ∃ writes,
    omap g (events (fetchAndStoreSpaceNews env w)) =
      omap g (if failed (clearFirestore env w) then [] else sweep env) ++ omap g writes ∧
    Forall (fun ev => is_write ev = true) writes.
Proof.
  intros Hlog Hclear.
  destruct (fetchAndStoreSpaceNews_run env w) as [_ Hrun].
  destruct (clearFirestore_spec env w) as (_ & Hc & _).
  rewrite <- (omap_effects g (events (fetchAndStoreSpaceNews env w))) by done.
  destruct (failed (clearFirestore env w)).
  - destruct Hrun as [_ ->]. exists []. split; [|constructor].
    by rewrite (omap_clear_calls g _ Hclear Hc).
  - destruct (aggregate env) as [doc|]; destruct Hrun as [_ ->].
    + exists [EvDocSet latest doc]. split; [|by repeat constructor].
      by rewrite !omap_app, (omap_clear_calls g _ Hclear Hc).
    + exists []. split; [|constructor].
      rewrite !omap_app, (omap_clear_calls g _ Hclear Hc). cbn.
      by rewrite app_nil_r.
Qed.

Lemma requests_sweep (env : Env) :
  ∃ n, (n ≤ 4)%nat ∧
       requests (sweep env) = (fun url => (url, [])) <$> take n (endpoints env).
Proof.
  destruct (until_failure_take env (endpoints env)) as (n & Hn & Hle & _).
  exists n. split; [exact Hle|]. unfold sweep. rewrite Hn.
  generalize (take n (endpoints env)). intros l.
  induction l as [|u l IH]; [done|]. cbn. by rewrite <- IH.
Qed.

(** X5: in a run of either entry point every endpoint is requested at most
    once, in the fixed order and without headers, and nothing else is ever
    requested: the requests are a duplicate-free prefix of the four
    endpoints. *)
Theorem requests_of_a_run (env : Env) (t : trigger) (w : World) :
  ∃ n, (n ≤ 4)%nat ∧
       requests (events (run env t w)) = (fun url => (url, [])) <$> take n (endpoints env) ∧
       NoDup (requests (events (run env t w))).
Proof.
  assert (Hrun : requests (events (run env t w))
                 = requests (events (fetchAndStoreSpaceNews env w))).
  { destruct t; cbn [run];
      [rewrite fetchNewsHandler_run | rewrite scheduledApiFetch_run];
      cbn [events]; unfold requests; rewrite omap_app; cbn; by rewrite app_nil_r. }
  destruct (omap_run (fun ev => match ev with EvFetch url h => Some (url, h) | _ => None end)
              env w) as (writes & Hreq & Hwrites); [done | by intros []|].
  fold (requests (events (fetchAndStoreSpaceNews env w))) in Hreq.
  assert (Hnone : requests writes = []).
  { clear Hreq. induction Hwrites as [|ev evs Hev _ IH]; [done|]. by destruct ev. }
  fold (requests writes) in Hreq. rewrite Hnone, app_nil_r in Hreq.
  assert (Hshape : ∃ n, (n ≤ 4)%nat ∧
            requests (events (run env t w))
            = (fun url => (url, [])) <$> take n (endpoints env)).
  { rewrite Hrun, Hreq. destruct (failed (clearFirestore env w)).
    - exists 0%nat. split; [lia | done].
    - apply requests_sweep. }
  destruct Hshape as (n & Hn & Heq). exists n. split; [done|]. split; [done|].
  rewrite Heq. apply NoDup_fmap_2; [by intros u1 u2 [= ->]|].
  apply (sublist_NoDup _ (endpoints env)); [apply endpoints_NoDup | apply sublist_take].
Qed.

(** X6: the on-demand handler sends exactly one response per request, and
    the scheduled handler sends none. *)
Theorem responses_of_a_run (env : Env) (w : World) :
  responses (events (fetchNewsHandler env w)) = [(200, "Space news fetched and stored.")] ∧
  responses (events (scheduledApiFetch env w)) = [].
Proof.
  destruct (omap_run (fun ev => match ev with EvSend code text => Some (code, text) | _ => None end)
              env w) as (writes & Hsent & Hwrites); [done | by intros []|].
  fold (responses (events (fetchAndStoreSpaceNews env w))) in Hsent.
  assert (Hnone : responses (events (fetchAndStoreSpaceNews env w)) = []).
  { rewrite Hsent.
    assert (Hw : responses writes = []).
    { clear Hsent. induction Hwrites as [|ev evs Hev _ IH]; [done|]. by destruct ev. }
    fold (responses writes). rewrite Hw, app_nil_r.
    destruct (failed (clearFirestore env w)); [done|].
    unfold sweep. generalize (until_failure env (endpoints env)).
    intros l. by induction l. }
  rewrite fetchNewsHandler_run, scheduledApiFetch_run. cbn [events].
  unfold responses in *. by rewrite !omap_app, Hnone.
Qed.

(** ** The aggregation and the snapshot *)

(** X4: the aggregation never throws and never touches the store; it returns
    a snapshot exactly when each of the four endpoints yields a value, and
    null otherwise. *)
Theorem fetchSpaceNews_returns (env : Env) (w : World) :
  let o := fetchSpaceNews env w in
  ∃ r, res o = Ok r ∧
       store (world o) = store w ∧
       (r ≠ None ↔ Forall (fun url => fetch_value env url ≠ None) (endpoints env)).
Proof.
  cbn zeta. destruct (fetchSpaceNews_run env w) as (Hres & Hst & _).
  exists (aggregate env). split; [done|]. split; [done|]. split.
  - destruct (aggregate env) as [doc|] eqn:Hagg; [|done].
    intros _. by apply (aggregate_Some env doc).
  - intros Hall. destruct (aggregate_all env Hall) as [doc ->]. done.
Qed.

(** X8: after a clear that returned, what the store holds at the end of a
    run depends on the environment alone: nothing of the previous content
    survives, whichever entry point ran and whatever the store held. *)
Theorem run_replaces_store (env : Env) (t t' : trigger) (w w' : World) :
  failed (clearFirestore env w) = false →
  failed (clearFirestore env w') = false →
  store (world (run env t w)) = store (world (run env t' w')).
Proof.
  intros Hw Hw'. rewrite !run_world.
  destruct (fetchAndStoreSpaceNews_run env w) as [_ Hrun].
  destruct (fetchAndStoreSpaceNews_run env w') as [_ Hrun'].
  rewrite Hw in Hrun. rewrite Hw' in Hrun'.
  destruct (aggregate env) as [doc|]; destruct Hrun as [-> _], Hrun' as [-> _]; done.
Qed.

(** ** The error log *)

Lemma error_lines_app (l1 l2 : list event) :
  error_lines (l1 ++ l2) = error_lines l1 ++ error_lines l2.
Proof. apply filter_app. Qed.

Lemma reports_app (l1 l2 : list event) : reports (l1 ++ l2) = reports l1 ++ reports l2.
Proof. apply omap_app. Qed.

Lemma quiet_error_lines (evs : list event) :
  Forall (fun ev => is_error_line ev = false) evs → error_lines evs = [].
Proof.
  intros Hq. unfold error_lines. induction Hq as [|ev evs Hev _ IH]; [done|].
  rewrite filter_cons_False; [done | by rewrite Hev].
Qed.

Lemma quiet_reports (evs : list event) :
  Forall (fun ev => is_error_line ev = false) evs → reports evs = [].
Proof.
  intros Hq. unfold reports. induction Hq as [|ev evs Hev _ IH]; [done|].
  cbn. rewrite IH. by destruct ev as [[] ? []| | | | | |].
Qed.

(** Clearing logs nothing at error level, whether it returns or throws. *)
Lemma clearCollection_quiet (env : Env) (c : string) (w : World) :
  Forall (fun ev => is_error_line ev = false) (events (clearCollection env c w)).
Proof.
  unfold clearCollection, collection_get, batch_commit, logger_info,
    bind, emit, throw, ret.
  destruct (get_error env c) as [e|]; cbn [res world events app];
    [by repeat constructor|].
  destruct (commit_error env _) as [e|]; cbn [res world events app];
    by repeat constructor.
Qed.

Lemma for_of_clearCollection_quiet (env : Env) (cs : list string) (w : World) :
  Forall (fun ev => is_error_line ev = false) (events (for_of cs (clearCollection env) w)).
Proof.
  revert w. induction cs as [|c cs IH]; intros w; [constructor|].
  cbn [for_of]. pose proof (clearCollection_quiet env c w) as Hc.
  destruct (res (clearCollection env c w)) as [[]|e] eqn:Hres.
  - rewrite (bind_Ok _ _ _ _ Hres). cbn [events]. by apply Forall_app.
  - by rewrite (bind_Throw _ _ _ _ Hres).
Qed.

Lemma clearFirestore_quiet (env : Env) (w : World) :
  Forall (fun ev => is_error_line ev = false) (events (clearFirestore env w)).
Proof.
  unfold clearFirestore.
  destruct (listCollections_error env) as [e|] eqn:Hlist.
  - rewrite (bind_Throw _ _ _ e) by (by rewrite listCollections_run, Hlist).
    rewrite listCollections_run. by repeat constructor.
  - rewrite (bind_Ok _ _ _ (collection_list env (store w)))
      by (by rewrite listCollections_run, Hlist).
    rewrite listCollections_run. cbn [res world events].
    apply Forall_app. split; [by repeat constructor|].
    apply for_of_clearCollection_quiet.
Qed.

(** The fetch client logs one line at error level when it fails and none
    when it succeeds; it never hands an error object to the logger. *)
Lemma fetchWithLogging_lines (env : Env) (url apiName : string) (w : World) :
  ∃ evs c r,
    fetchWithLogging env url apiName [] w =
      {| res := r; world := {| store := store w; clock := c |}; events := evs |} ∧
    reports evs = [] ∧
    match fetch_value env url with
    | Some j => r = Ok j ∧ error_lines evs = []
    | None => ∃ e line, r = Throw e ∧ error_lines evs = [line]
    end.
Proof.
  unfold fetchWithLogging, fetch, response_json, logger_info, logger_debug,
    logger_error, Date_now, try_catch, bind, emit, throw, ret, fetch_value.
  cbn [res world events store clock].
  destruct (http env url []) as [e|r]; cbn [res world events store clock].
  - eexists _, _, _. split; [done|]. split; [done|]. by eexists _, _.
  - destruct (ok r); cbn [negb res world events store clock].
    + destruct (body r) as [j|e]; cbn [res world events store clock].
      * eexists _, _, _. split; [done|]. by split.
      * eexists _, _, _. split; [done|]. split; [done|]. by eexists _, _.
    + eexists _, _, _. split; [done|]. split; [done|]. by eexists _, _.
Qed.

#[local] Arguments fetchWithLogging : simpl never.

Ltac lines_step env :=
  match goal with
  | |- context [fetchWithLogging env ?u ?l [] ?w] =>
      let evs := fresh "evs" in
      let r := fresh "r" in
      let Hrep := fresh "Hrep" in
      let Herr := fresh "Herr" in
      let Hr := fresh "Hr" in
      destruct (fetchWithLogging_lines env u l w) as (evs & ? & r & -> & Hrep & Hr);
      destruct (fetch_value env u) as [?|] eqn:?;
      [ destruct Hr as [-> Herr] | destruct Hr as (? & ? & -> & Herr) ];
      cbn [res world events store clock]
  end.

Lemma error_lines_info (msg : string) (evs : list event) :
  error_lines (EvLog Info msg None :: evs) = error_lines evs.
Proof. reflexivity. Qed.

Lemma error_lines_err (msg : string) (err : option exn) (evs : list event) :
  error_lines (EvLog Err msg err :: evs) = EvLog Err msg err :: error_lines evs.
Proof. reflexivity. Qed.

Lemma reports_info (msg : string) (evs : list event) :
  reports (EvLog Info msg None :: evs) = reports evs.
Proof. reflexivity. Qed.

Lemma reports_err (msg : string) (e : exn) (evs : list event) :
  reports (EvLog Err msg (Some e) :: evs) = (msg, e) :: reports evs.
Proof. reflexivity. Qed.

(** A failed aggregation is logged twice at error level: by the fetch client
    and by the aggregator, which alone hands the error object over. *)
Lemma fetchSpaceNews_lines (env : Env) (w : World) :
  let o := fetchSpaceNews env w in
  match aggregate env with
  | Some _ => error_lines (events o) = [] ∧ reports (events o) = []
  | None =>
      ∃ e line,
        error_lines (events o) = [line; EvLog Err "Error fetching space news:" (Some e)] ∧
        reports (events o) = [("Error fetching space news:", e)]
  end.
Proof.
  unfold fetchSpaceNews, aggregate, logger_info, logger_error, try_catch, bind, emit, ret.
  cbn [res world events store clock].
  lines_step env; [lines_step env; [lines_step env; [lines_step env|]|]|];
    cbn [mbind option_bind]; try (eexists _, _);
    rewrite ?error_lines_app, ?reports_app, ?error_lines_info, ?reports_info;
    repeat match goal with
           | H : reports _ = _ |- _ => rewrite H; clear H
           | H : error_lines _ = _ |- _ => rewrite H; clear H
           end;
    rewrite ?error_lines_app, ?reports_app, ?error_lines_info, ?reports_info,
      ?error_lines_err, ?reports_err;
    cbn [app]; done.
Qed.

(** X10: an aggregation that returns a snapshot logs nothing at error level;
    one that returns null logs exactly two error lines, the fetch client's
    and then the aggregator's, and only the latter carries the error. *)
Theorem fetchSpaceNews_error_lines (env : Env) (w : World) :
  let o := fetchSpaceNews env w in
  (∀ doc, res o = Ok (Some doc) →
          error_lines (events o) = [] ∧ reports (events o) = []) ∧
  (res o = Ok None →
   ∃ e line,
     error_lines (events o) = [line; EvLog Err "Error fetching space news:" (Some e)] ∧
     reports (events o) = [("Error fetching space news:", e)]).
Proof.
  cbn zeta. destruct (fetchSpaceNews_run env w) as (Hres & _ & _).
  pose proof (fetchSpaceNews_lines env w) as Hlines. cbn zeta in Hlines.
  rewrite Hres. split.
  - intros doc [= Hagg]. by rewrite Hagg in Hlines.
  - intros [= Hagg]. by rewrite Hagg in Hlines.
Qed.

(** X7: a run hands at most one error to the logger, and it is silent at
    error level exactly when the clear returned, the aggregation produced a
    snapshot and the write of that snapshot returned. *)
Theorem error_log_of_a_run (env : Env) (w : World) :
  let c := clearFirestore env w in
  let f := fetchSpaceNews env (world c) in
  let o := fetchAndStoreSpaceNews env w in
  let stored :=
    failed c = false ∧ ∃ doc, res f = Ok (Some doc) ∧ set_error env latest doc = None in
  (length (reports (events o)) ≤ 1)%nat ∧
  (reports (events o) = [] ↔ stored) ∧
  (error_lines (events o) = [] ↔ stored).
Proof.
  cbn zeta. pose proof (clearFirestore_quiet env w) as Hq. revert Hq.
  unfold fetchAndStoreSpaceNews, try_catch, bind, failed.
  destruct (clearFirestore env w) as [[[]|e0] w1 evs1]; cbn [res world events];
    intros Hq.
  2:{ unfold logger_error, emit. cbn [res world events].
      rewrite error_lines_app, reports_app, quiet_error_lines, quiet_reports by done.
      cbn. split; [lia|]. split; (split; [done | by intros [? _]]). }
  pose proof (fetchSpaceNews_lines env w1) as Hl. cbn zeta in Hl.
  destruct (fetchSpaceNews_run env w1) as (Hres & _ & _). revert Hl Hres.
  destruct (fetchSpaceNews env w1) as [r2 w2 evs2]; cbn [res world events].
  intros Hl ->. destruct (aggregate env) as [doc|].
  - destruct Hl as [He Hr]. rewrite doc_set_run.
    destruct (set_error env latest doc) as [e|] eqn:Hset;
      unfold logger_info, logger_error, emit; cbn [res world events];
      rewrite !error_lines_app, !reports_app, He, Hr,
        (quiet_error_lines evs1), (quiet_reports evs1) by done; cbn.
    + split; [lia|].
      split; (split; [done | intros [_ (doc' & [= <-] & Hnone)]; congruence]).
    + split; [lia|]. split; (split; [intros _; split; [done | by exists doc] | done]).
  - destruct Hl as (e & line & He & Hr). unfold ret. cbn [res world events].
    rewrite !error_lines_app, !reports_app, He, Hr,
      (quiet_error_lines evs1), (quiet_reports evs1) by done. cbn.
    split; [lia|]. split; (split; [done | by intros [_ (doc' & ? & _)]]).
Qed.

(** ** Start-up *)

(** X11: when start-up returns, an app is registered, so the store client
    obtained next has one to use; start-up adds at most one app, exactly one
    log line with it, and running it again changes nothing. *)
Theorem startup_idempotent (h : Host) (p : Process) (key : option string) :
  outcome (startup h p) = Ok key →
  let p' := process (startup h p) in
  apps p' ≠ [] ∧
  (apps p ≠ [] → p' = p) ∧
  (apps p = [] → ∃ cred line, apps p' = [cred] ∧ logged p' = logged p ++ [line]) ∧
  startup h p' = {| outcome := Ok key; process := p' |}.
Proof.
  unfold startup, initializeApp, log_line.
  destruct (config h) as [configuration|e]; [|done].
  destruct (nasa configuration) as [n|]; [|done].
  destruct (service_account configuration) as [sa|]; [|done].
  destruct (apps p) as [|app rest] eqn:Happs; cbn [outcome process].
  2:{ intros [= <-]. rewrite Happs. by repeat split. }
  destruct (truthy (key_path sa)).
  - destruct (readFileSync h _) as [text|e]; [|done].
    destruct (JSON_parse h text) as [serviceAccount|e]; [|done].
    destruct (cert_error h serviceAccount) as [e|]; [done|].
    cbn [apps outcome process reads logged].
    destruct (initializeApp_error h (Cert serviceAccount)) as [e|]; [done|].
    cbn [apps outcome process reads logged]. intros [= <-].
    repeat split; [done | done | by eexists _, _].
  - destruct (initializeApp_error h ApplicationDefault) as [e|]; [done|].
    cbn [apps outcome process reads logged]. intros [= <-].
    repeat split; [done | done | by eexists _, _].
Qed.

(** X12: once the configuration has been obtained, a missing [nasa] or
    [service_account] section makes start-up throw the [TypeError] of the
    property read on it, whether or not an app is registered, and leaves
    the process as it was; with both sections present and no app registered,
    a key path that is a non-empty string and a key file that cannot be
    read, parsed or accepted make it throw that error. *)
Theorem startup_missing_configuration (h : Host) (p : Process) (configuration : Config) :
  config h = Ok configuration →
  (nasa configuration = None →
   startup h p = {| outcome := Throw (undefined_property h "api_key"); process := p |}) ∧
  (nasa configuration ≠ None → service_account configuration = None →
   startup h p = {| outcome := Throw (undefined_property h "key_path"); process := p |}) ∧
  (∀ sa path e,
     nasa configuration ≠ None → service_account configuration = Some sa →
     apps p = [] → key_path sa = Some path → path ≠ "" →
     key_file_error h path = Some e →
     outcome (startup h p) = Throw e).
Proof.
  intros Hconfig. unfold startup. rewrite Hconfig. split; [by intros ->|]. split.
  - destruct (nasa configuration) as [n|]; [|done]. by intros _ ->.
  - intros sa path e Hn Hsa Happs Hkp Hpath Hfile.
    destruct (nasa configuration) as [n|]; [|done].
    rewrite Hsa, Happs, Hkp. unfold truthy, key_file_error in *.
    rewrite bool_decide_eq_false_2 by done. cbn [negb default]. unfold id.
    destruct (readFileSync h path) as [text|e']; cbn [outcome]; [|congruence].
    destruct (JSON_parse h text) as [serviceAccount|e']; cbn [outcome]; [|congruence].
    destruct (cert_error h serviceAccount) as [e'|]; cbn [outcome]; congruence.
Qed.

(** X13: a start-up that throws registers no app and logs nothing; in
    particular a key file that cannot be used never makes it fall back to
    the default credentials. *)
Theorem startup_failure_registers_nothing (h : Host) (p : Process) (e : exn) :
  outcome (startup h p) = Throw e →
  apps (process (startup h p)) = apps p ∧
  logged (process (startup h p)) = logged p.
Proof.
  unfold startup, initializeApp.
  destruct (config h) as [configuration|e']; [|done].
  destruct (nasa configuration) as [n|]; [|done].
  destruct (service_account configuration) as [sa|]; [|done].
  destruct (apps p) as [|app rest] eqn:Happs; cbn [outcome process]; [|done].
  destruct (truthy (key_path sa)).
  - destruct (readFileSync h _) as [text|e']; [|done].
    destruct (JSON_parse h text) as [serviceAccount|e']; [|done].
    destruct (cert_error h serviceAccount) as [e'|]; [done|].
    cbn [apps]. by destruct (initializeApp_error h (Cert serviceAccount)) as [e'|].
  - by destruct (initializeApp_error h ApplicationDefault) as [e'|].
Qed.

(** ** Witnesses of the further properties *)

Lemma clearFirestore_only_deletes_witness :
  store seeded_world !! ("archive", "1") = Some (JString "old").
Proof.
  apply (clearFirestore_only_deletes archive_locked_env seeded_world). by vm_compute.
Defined.

Lemma clearFirestore_empty_store_witness :
  events (clearFirestore all_up_env empty_world) = [EvListCollections] ∧
  store (world (clearFirestore all_up_env empty_world)) = ∅ ∧
  res (clearFirestore all_up_env empty_world) =
    match listCollections_error all_up_env with
    | Some e => Throw e
    | None => Ok tt
    end.
Proof. apply (clearFirestore_empty_store all_up_env empty_world). reflexivity. Defined.

Lemma clearFirestore_calls_witness :
  ∃ collections,
    res (listCollections all_up_env seeded_world) = Ok collections ∧
    (∀ c, c ∈ collections →
          ∃ docs, res (collection_get all_up_env c seeded_world) = Ok docs ∧
                  collection_refs all_up_env c (store seeded_world) = docs.*1) ∧
    events (clearFirestore all_up_env seeded_world) =
      EvListCollections :: clear_trace all_up_env (store seeded_world) collections.
Proof. apply (clearFirestore_calls all_up_env seeded_world). by vm_compute. Defined.

(** The calls of that clear, spelled out: [archive] comes before [spaceNews]
    and its documents in the order of their names. *)
Example seeded_clear_calls :
  events (clearFirestore all_up_env seeded_world) =
    [EvListCollections;
     EvCollectionGet "archive";
     EvBatchCommit [("archive", "1"); ("archive", "2")];
     EvLog Info "Cleared collection: archive" None;
     EvCollectionGet "spaceNews";
     EvBatchCommit [("spaceNews", "latest")];
     EvLog Info "Cleared collection: spaceNews" None].
Proof. by vm_compute. Qed.

Lemma run_replaces_store_witness :
  store (world (run all_up_env OnDemand seeded_world))
  = store (world (run all_up_env Scheduled empty_world)).
Proof.
  apply (run_replaces_store all_up_env OnDemand Scheduled seeded_world empty_world);
    by vm_compute.
Defined.

Lemma startup_idempotent_witness :
  let h := mock_host keyed_config [("/secrets/sa.json", "{}")] in
  apps (process (startup h fresh_process)) ≠ [] ∧
  (apps fresh_process ≠ [] → process (startup h fresh_process) = fresh_process) ∧
  (apps fresh_process = [] →
   ∃ cred line,
     apps (process (startup h fresh_process)) = [cred] ∧
     logged (process (startup h fresh_process)) = logged fresh_process ++ [line]) ∧
  startup h (process (startup h fresh_process)) =
    {| outcome := Ok (Some "DEMO_KEY"); process := process (startup h fresh_process) |}.
Proof.
  apply (startup_idempotent (mock_host keyed_config [("/secrets/sa.json", "{}")])
           fresh_process (Some "DEMO_KEY")).
  by vm_compute.
Defined.

Lemma startup_failure_registers_nothing_witness :
  apps (process (startup (mock_host keyed_config []) fresh_process)) = apps fresh_process ∧
  logged (process (startup (mock_host keyed_config []) fresh_process))
    = logged fresh_process.
Proof.
  apply (startup_failure_registers_nothing (mock_host keyed_config []) fresh_process
           {| name := "Error"; message := "ENOENT" |}).
  by vm_compute.
Defined.

Lemma startup_missing_configuration_witness :
  let c := {| nasa := Some {| api_key := Some "DEMO_KEY" |}; service_account := None |} in
  let p := {| apps := [ApplicationDefault]; reads := []; logged := [] |} in
  (nasa c = None →
   startup (mock_host c []) p =
     {| outcome := Throw (undefined_property (mock_host c []) "api_key"); process := p |}) ∧
  (nasa c ≠ None → service_account c = None →
   startup (mock_host c []) p =
     {| outcome := Throw (undefined_property (mock_host c []) "key_path"); process := p |}) ∧
  (∀ sa path e,
     nasa c ≠ None → service_account c = Some sa →
     apps p = [] → key_path sa = Some path → path ≠ "" →
     key_file_error (mock_host c []) path = Some e →
     outcome (startup (mock_host c []) p) = Throw e).
Proof.
  apply (startup_missing_configuration
           (mock_host {| nasa := Some {| api_key := Some "DEMO_KEY" |};
                         service_account := None |} [])
           {| apps := [ApplicationDefault]; reads := []; logged := [] |}).
  reflexivity.
Defined.
